(** * mapper: column/field correspondence for database rows

    A shallow embedding of [mapper.go] and [options.go] of
    github.com/dav-m85/mapper, and the properties of the resolution
    algorithm ([MapperWithKey]), of [Subset] and of the derived views
    ([ColumnsString], [ColumnsStringPrefix], [Marks], [Addrs], [Values]).

    Conventions of the embedding:
    - a Go [string] is a Stdlib [string] read as a sequence of bytes;
    - a [rune] and an [int] are a [Z]; positions in a slice that the code
      only ever produces from a loop counter are [nat];
    - a slice is a [list]; [s[i]] is stdpp's lookup, with the run-time
      panic of Go written out where the index can be out of range;
    - a panic is the [Panic] constructor of [result]; the payload says
      whether the panic is one of the program's own [panic("...")] calls
      or one raised by the Go runtime or by package [reflect];
    - [*mapper] receivers are modelled by the pointee, except in [Subset]
      and [SetOptions], whose contracts are about the identity of the
      returned pointer: these run on a store of mapper objects. *)

From Stdlib Require Import ZArith String Ascii List Bool Lia.
From stdpp Require Import base option list strings sorting.
Import ListNotations.

Set Warnings "-register-all".

(* stdpp blocks [simpl] on string concatenation; the proofs about the
   strings the program builds unfold it on constructors. *)
#[global] Arguments String.append !s1 s2 : simpl nomatch.
Local Open Scope string_scope.
Local Open Scope list_scope.

(** ** Panics and results *)

Inductive panic : Type :=
| PanicString (msg : string)   (* panic("...") of the program itself *)
| ReflectPanic (msg : string)  (* raised inside package reflect *)
| RuntimeError (msg : string)  (* raised by the Go runtime or the standard library *).

Inductive result (A : Type) : Type :=
| Ok (a : A)
| Panic (p : panic).

Arguments Ok {A} a.
Arguments Panic {A} p.

(** Sequencing stops at the first panic; [x ← r; k] is stdpp's notation
    for it. *)
#[global] Instance result_bind : MBind result := fun A B k r =>
  match r with
  | Ok a => k a
  | Panic p => Panic p
  end.

(** ** The part of package [strings] and [unicode/utf8] the program uses *)

Module Utf8.

Definition byte_of_Z (z : Z) : ascii := ascii_of_N (Z.to_N (z mod 256)).

Definition RuneError : Z := 65533.
Definition MaxRune : Z := 1114111.

Definition encode3 (r : Z) : string :=
  String (byte_of_Z (Z.lor 224 (Z.shiftr r 12)))
    (String (byte_of_Z (Z.lor 128 (Z.land (Z.shiftr r 6) 63)))
       (String (byte_of_Z (Z.lor 128 (Z.land r 63))) EmptyString)).

(** [utf8.AppendRune] on an empty buffer; [string(r)] for a rune [r] and
    [Builder.WriteRune] both produce these bytes.  The rune is an
    [int32], compared as [uint32(r)]. *)
Definition EncodeRune (r : Z) : string :=
  let i := (r mod 4294967296)%Z in
  if (i <=? 127)%Z then String (byte_of_Z i) EmptyString
  else if (i <=? 2047)%Z then
    String (byte_of_Z (Z.lor 192 (Z.shiftr i 6)))
      (String (byte_of_Z (Z.lor 128 (Z.land i 63))) EmptyString)
  else if (MaxRune <? i)%Z || ((55296 <=? i)%Z && (i <=? 57343)%Z) then
    encode3 RuneError
  else if (i <=? 65535)%Z then encode3 i
  else
    String (byte_of_Z (Z.lor 240 (Z.shiftr i 18)))
      (String (byte_of_Z (Z.lor 128 (Z.land (Z.shiftr i 12) 63)))
         (String (byte_of_Z (Z.lor 128 (Z.land (Z.shiftr i 6) 63)))
            (String (byte_of_Z (Z.lor 128 (Z.land i 63))) EmptyString))).

End Utf8.

Module Strings.

(** [len(s)] *)
Definition len (s : string) : Z := Z.of_nat (String.length s).

Fixpoint HasPrefix (s pre : string) : bool :=
  match pre, s with
  | EmptyString, _ => true
  | String a pre', String b s' => Ascii.eqb a b && HasPrefix s' pre'
  | String _ _, EmptyString => false
  end.

Fixpoint drop (n : nat) (s : string) : string :=
  match n, s with
  | O, _ => s
  | S n', String _ s' => drop n' s'
  | S _, EmptyString => EmptyString
  end.

Fixpoint take (n : nat) (s : string) : string :=
  match n, s with
  | O, _ => EmptyString
  | S n', String a s' => String a (take n' s')
  | S _, EmptyString => EmptyString
  end.

(** [len(s) >= len(suffix) && s[len(s)-len(suffix):] == suffix] *)
Definition HasSuffix (s suffix : string) : bool :=
  (String.length suffix <=? String.length s)%nat
  && String.eqb (drop (String.length s - String.length suffix) s) suffix.

Definition lower_byte (a : ascii) : ascii :=
  let n := nat_of_ascii a in
  if ((65 <=? n) && (n <=? 90))%nat then ascii_of_nat (n + 32) else a.

(** [strings.ToLower] on ASCII text; bytes of 128 and more are kept, so
    the model is the Go function on names written in ASCII. *)
Fixpoint ToLower (s : string) : string :=
  match s with
  | EmptyString => EmptyString
  | String a s' => String (lower_byte a) (ToLower s')
  end.

(** [strings.Join(elems, sep)] *)
Fixpoint Join (elems : list string) (sep : string) : string :=
  match elems with
  | [] => EmptyString
  | [e] => e
  | e :: rest => (e ++ sep ++ Join rest sep)%string
  end.

(** [strings.Index(s, substr)]: offset of the first occurrence. *)
Fixpoint Index (s substr : string) : option nat :=
  if HasPrefix s substr then Some O
  else match s with
       | EmptyString => None
       | String _ s' => option_map S (Index s' substr)
       end.

(** [strings.Split(s, sep)] for a non-empty [sep]: cut at each
    occurrence found by [Index], left to right.  The recursion is on a
    bound of the length of what remains to be cut. *)
Fixpoint genSplit (fuel : nat) (s sep : string) : list string :=
  match fuel with
  | O => [s]
  | S fuel' =>
      match Index s sep with
      | None => [s]
      | Some i => take i s :: genSplit fuel' (drop (i + String.length sep) s) sep
      end
  end.

Definition Split (s sep : string) : list string :=
  genSplit (String.length s) s sep.

(** [strings.TrimPrefix(s, prefix)] *)
Definition TrimPrefix (s pre : string) : string :=
  if HasPrefix s pre then drop (String.length pre) s else s.

(** [strings.Builder]: the bytes written so far. *)
Module Builder.
Definition t := string.
Definition zero : t := EmptyString.
Definition Grow (b : t) (n : Z) : result t :=
  if (n <? 0)%Z then Panic (RuntimeError "strings.Builder.Grow: negative count")
  else Ok b.
Definition WriteString (b : t) (s : string) : t := (b ++ s)%string.
Definition WriteRune (b : t) (r : Z) : t := (b ++ Utf8.EncodeRune r)%string.
Definition String (b : t) : string := b.
End Builder.

End Strings.

(** ** The part of package [reflect] the program uses *)

Module Reflect.

(** A struct tag in the conventional [key:"value" ...] form, as its
    pairs in the order written. *)
Definition StructTag := list (string * string).

(** [StructTag.Get]: the value of the first pair with this key, the
    empty string when there is none. *)
Fixpoint Get (tag : StructTag) (key : string) : string :=
  match tag with
  | [] => EmptyString
  | (k, v) :: tag' => if String.eqb k key then v else Get tag' key
  end.

Record StructField : Type := {
  Name : string;
  PkgPath : string;  (* empty for an exported field *)
  Tag : StructTag
}.

Definition IsExported (f : StructField) : bool := String.eqb (PkgPath f) EmptyString.

Inductive Kind : Type := Invalid | Int | String_ | Struct | Pointer.

Definition Kind_eqb (a b : Kind) : bool :=
  match a, b with
  | Invalid, Invalid | Int, Int | String_, String_
  | Struct, Struct | Pointer, Pointer => true
  | _, _ => false
  end.

Inductive Type_ : Type :=
| TInt
| TString
| TStruct (name : string) (fs : list StructField)
| TPointer (elem : Type_).

Definition kind (t : Type_) : Kind :=
  match t with
  | TInt => Int
  | TString => String_
  | TStruct _ _ => Struct
  | TPointer _ => Pointer
  end.

(** [t.Elem()], which panics unless [t] is a pointer (or another
    composite that the model leaves out). *)
Definition Elem (t : Type_) : result Type_ :=
  match t with
  | TPointer e => Ok e
  | _ => Panic (ReflectPanic "reflect: Elem of invalid type")
  end.

Definition NumField (t : Type_) : result nat :=
  match t with
  | TStruct _ fs => Ok (length fs)
  | _ => Panic (ReflectPanic "reflect: NumField of non-struct type")
  end.

Definition Field (t : Type_) (i : nat) : result StructField :=
  match t with
  | TStruct _ fs =>
      match fs !! i with
      | Some f => Ok f
      | None => Panic (ReflectPanic "reflect: Field index out of bounds")
      end
  | _ => Panic (ReflectPanic "reflect: Field of non-struct type")
  end.

(** A place in memory: an allocated object and the path of field
    positions leading into it. *)
Definition place : Type := nat * list nat.

Inductive value : Type :=
| VInt (n : Z)
| VString (s : string)
| VStruct (t : Type_) (vs : list value)
| VPointer (elem : Type_) (p : option place).

Definition typeof (v : value) : Type_ :=
  match v with
  | VInt _ => TInt
  | VString _ => TString
  | VStruct t _ => t
  | VPointer e _ => TPointer e
  end.

(** A Go [any]: [None] is the nil interface. *)
Definition any : Type := option value.

(** [reflect.TypeOf]: [None] is the nil [reflect.Type]. *)
Definition TypeOf (a : any) : option Type_ := option_map typeof a.

(** Calling [Kind] on the nil [reflect.Type] dereferences nil. *)
Definition KindOf (t : option Type_) : result Kind :=
  match t with
  | Some t => Ok (kind t)
  | None => Panic (RuntimeError "invalid memory address or nil pointer dereference")
  end.

(** The allocated instances. *)
Abbreviation memory := (list value) (only parsing).

Fixpoint follow (v : value) (path : list nat) : option value :=
  match path with
  | [] => Some v
  | i :: path' =>
      match v with
      | VStruct _ vs =>
          match vs !! i with
          | Some v' => follow v' path'
          | None => None
          end
      | _ => None
      end
  end.

Definition load (mem : memory) (pl : place) : option value :=
  match mem !! pl.1 with
  | Some v => follow v pl.2
  | None => None
  end.

Fixpoint update (v : value) (path : list nat) (x : value) : option value :=
  match path with
  | [] => Some x
  | i :: path' =>
      match v with
      | VStruct t vs =>
          match vs !! i with
          | Some v' =>
              match update v' path' x with
              | Some u => Some (VStruct t (<[i := u]> vs))
              | None => None
              end
          | None => None
          end
      | _ => None
      end
  end.

(** [*p = x] for a pointer [p] to the place [pl]. *)
Definition store_through (mem : memory) (pl : place) (x : value) : option memory :=
  match mem !! pl.1 with
  | Some v =>
      match update v pl.2 x with
      | Some u => Some (<[pl.1 := u]> mem)
      | None => None
      end
  | None => None
  end.

(** A [reflect.Value]: what it holds ([None] for the zero Value), the
    read-only flag of a value reached through a non-exported field, and
    the place it was reached at when it is addressable. *)
Record Value : Type := {
  val : option value;
  flagRO : bool;
  addr : option place
}.

Definition zeroValue : Value := {| val := None; flagRO := false; addr := None |}.

Definition ValueOf (a : any) : Value := {| val := a; flagRO := false; addr := None |}.

(** The type of a [reflect.Value] itself, a struct of package reflect. *)
Definition rtype_of_Value : Type_ :=
  TStruct "reflect.Value"
    [ {| Name := "typ_"; PkgPath := "reflect"; Tag := [] |};
      {| Name := "ptr"; PkgPath := "reflect"; Tag := [] |};
      {| Name := "flag"; PkgPath := "reflect"; Tag := [] |} ].

Definition Value_Type (v : Value) : result Type_ :=
  match val v with
  | Some x => Ok (typeof x)
  | None => Panic (ReflectPanic "reflect: call of reflect.Value.Type on zero Value")
  end.

Definition Value_Elem (mem : memory) (v : Value) : result Value :=
  match val v with
  | Some (VPointer _ None) => Ok zeroValue
  | Some (VPointer _ (Some pl)) =>
      match load mem pl with
      | Some x => Ok {| val := Some x; flagRO := flagRO v; addr := Some pl |}
      | None => Panic (RuntimeError "invalid memory address or nil pointer dereference")
      end
  | _ => Panic (ReflectPanic "reflect: call of reflect.Value.Elem on a Value that is no pointer")
  end.

Definition Value_Field (v : Value) (i : nat) : result Value :=
  match val v with
  | Some (VStruct (TStruct _ fs) vs) =>
      match fs !! i, vs !! i with
      | Some f, Some x =>
          Ok {| val := Some x;
                flagRO := flagRO v || negb (IsExported f);
                addr := option_map (fun pl : place => (pl.1, pl.2 ++ [i])) (addr v) |}
      | _, _ => Panic (ReflectPanic "reflect: Field index out of range")
      end
  | _ => Panic (ReflectPanic "reflect: call of reflect.Value.Field on a Value that is no struct")
  end.

Definition Value_Addr (v : Value) : result Value :=
  match val v, addr v with
  | Some x, Some pl =>
      Ok {| val := Some (VPointer (typeof x) (Some pl)); flagRO := flagRO v; addr := None |}
  | _, _ => Panic (ReflectPanic "reflect.Value.Addr of unaddressable value")
  end.

Definition Value_Interface (v : Value) : result any :=
  match val v with
  | None => Panic (ReflectPanic "reflect: call of reflect.Value.Interface on zero Value")
  | Some x =>
      if flagRO v then
        Panic (ReflectPanic "reflect.Value.Interface: cannot return value obtained from unexported field or method")
      else Ok (Some x)
  end.

End Reflect.

Import Reflect.

(** ** mapper.go *)

Definition FieldMapperFn : Type := string -> string.

Definition Direct : FieldMapperFn := fun field => field.

(** [mapper] carries the mapping between the columns' names and the
    positions of the fields of [target]. *)
Record mapper : Type := {
  fields : list nat;
  cols : list string;
  target : Type_;
  Comma : Z;
  Mark : Z;
  FieldMapper : option FieldMapperFn  (* [None] is the nil function *)
}.

(** *** fieldSlice helper *)

(** [joker]: ["*"] is in [fs]. *)
Fixpoint joker (fs : list string) : bool :=
  match fs with
  | [] => false
  | f :: fs' => if String.eqb f "*" then true else joker fs'
  end.

Fixpoint index_from (i : Z) (fs : list string) (name : string) : Z :=
  match fs with
  | [] => (-1)%Z
  | f :: fs' => if String.eqb f name then i else index_from (i + 1)%Z fs' name
  end.

(** [index]: position of the first occurrence of [name] in [fs], -1
    when there is none. *)
Definition index (fs : list string) (name : string) : Z := index_from 0%Z fs name.

(** *** MapperWithKey *)

(** The slice trick of the loop, delete without preserving order:
    [columns[i] = columns[len(columns)-1]; columns = columns[:len(columns)-1]]. *)
Definition delete_unordered (columns : list string) (i : nat) : result (list string) :=
  match columns !! (length columns - 1) with
  | None => Panic (RuntimeError "index out of range")
  | Some x =>
      if (i <? length columns)%nat
      then Ok (take (length columns - 1) (<[i := x]> columns))
      else Panic (RuntimeError "index out of range")
  end.

(** The column a field stands for: its tag under [key] when it has one,
    else its name through the field mapper.  [None] is the [continue] of
    a tag ending in [,ignore]. *)
Definition candidate (key : string) (m : mapper) (f : StructField) : option string :=
  let t := Get (Tag f) key in
  if negb (String.eqb t EmptyString) then
    if Strings.HasSuffix t ",ignore" then None else Some t
  else
    match FieldMapper m with
    | Some fm => Some (fm (Name f))
    | None => Some (Name f)
    end.

(** The block under [if !joker]: [None] is its [continue], otherwise the
    wanted columns that remain. *)
Definition wanted (jok : bool) (columns : list string) (col : string)
    : result (option (list string)) :=
  if negb jok then
    let i := index columns col in
    if (i =? -1)%Z then Ok None
    else columns' ← delete_unordered columns (Z.to_nat i); Ok (Some columns')
  else Ok (Some columns).

Definition append_field (m : mapper) (col : string) (i : nat) : mapper :=
  {| fields := fields m ++ [i];
     cols := cols m ++ [col];
     target := target m;
     Comma := Comma m;
     Mark := Mark m;
     FieldMapper := FieldMapper m |}.

(** One turn of the loop over the fields, on the pair of the wanted
    columns and the mapper under construction. *)
Definition field_step (key : string) (jok : bool) (i : nat) (f : StructField)
    (st : list string * mapper) : result (list string * mapper) :=
  let '(columns, m) := st in
  if IsExported f then
    match candidate key m f with
    | None => Ok st
    | Some col =>
        w ← wanted jok columns col;
        match w with
        | None => Ok st
        | Some columns' =>
            if negb (index (cols m) col =? -1)%Z
            then Panic (PanicString ("Field " ++ col ++ " is mapped more than once")%string)
            else Ok (columns', append_field m col i)
        end
    end
  else Ok st.

(** [for i := ...; i++ { f := t.Field(i); ... }] over the positions [idxs]. *)
Fixpoint for_fields (key : string) (jok : bool) (t : Type_) (idxs : list nat)
    (st : list string * mapper) : result (list string * mapper) :=
  match idxs with
  | [] => Ok st
  | i :: idxs' =>
      f ← Field t i;
      st' ← field_step key jok i f st;
      for_fields key jok t idxs' st'
  end.

(** The [&mapper{...}] literal of [MapperWithKey]. *)
Definition new_mapper (t : Type_) : mapper :=
  {| fields := []; cols := []; target := t;
     Comma := 44; Mark := 63;
     FieldMapper := Some Strings.ToLower |}.

Definition MapperWithKey (tgt : any) (key : string) (columns : list string)
    : result mapper :=
  if String.eqb key EmptyString then
    Panic (PanicString "Mapper MUST have a non empty struct tag key.")
  else
    match TypeOf tgt with
    | None => Panic (RuntimeError "invalid memory address or nil pointer dereference")
    | Some t =>
        k ← (if Kind_eqb (kind t) Pointer then e ← Elem t; Ok (kind e)
             else Ok (kind t));
        if negb (Kind_eqb k Struct) then
          Panic (PanicString "Mapper first argument MUST be a struct or a struct pointer")
        else
          let m := new_mapper t in
          if (length columns =? 0)%nat then
            Panic (PanicString "Mapper MUST select at least one field")
          else
            let jok := joker columns in
            n ← NumField t;
            '(columns', m') ← for_fields key jok t (seq 0 n) (columns, m);
            if negb jok && negb (length columns' =? 0)%nat then
              Panic (PanicString ("Some fields are missing from target: "
                                  ++ Strings.Join columns' ",")%string)
            else Ok m'
    end.

(** [Mapper] uses the tag key ["mapper"]. *)
Definition Mapper (tgt : any) (columns : list string) : result mapper :=
  MapperWithKey tgt "mapper" columns.

Definition Columns (m : mapper) : list string := cols m.

(** *** Subset and the options, on a store of mapper objects *)

(** The allocated mapper objects; a [*mapper] is a position in it. *)
Abbreviation store := (list mapper) (only parsing).
Abbreviation ptr := nat (only parsing).

(** [&mapper{...}] *)
Definition new (h : store) (m : mapper) : ptr * store := (length h, h ++ [m]).

Definition deref (h : store) (p : ptr) : result mapper :=
  match h !! p with
  | Some m => Ok m
  | None => Panic (RuntimeError "invalid memory address or nil pointer dereference")
  end.

(** [for i, c := range m.cols { ... }] of [Subset], from position [i] on
    the columns [cs] still to visit. *)
Fixpoint subset_loop (m : mapper) (columns : list string) (i : nat)
    (cs : list string) (nm : mapper) : result mapper :=
  match cs with
  | [] => Ok nm
  | c :: cs' =>
      if negb (index columns c =? -1)%Z then
        match fields m !! i with
        | None => Panic (RuntimeError "index out of range")
        | Some fi => subset_loop m columns (S i) cs' (append_field nm c fi)
        end
      else subset_loop m columns (S i) cs' nm
  end.

(** [Subset] returns a mapper with only the provided columns. *)
Definition Subset (p : ptr) (columns : list string) (h : store)
    : result (ptr * store) :=
  m ← deref h p;
  let nm0 := {| fields := []; cols := []; target := target m;
                Comma := Comma m; Mark := Mark m;
                FieldMapper := FieldMapper m |} in
  let '(nm, h1) := new h nm0 in
  if (length columns =? 0)%nat then Ok (nm, h1)
  else if joker columns then Ok (p, h1)
  else
    nmv ← subset_loop m columns 0 (cols m) nm0;
    Ok (nm, <[nm := nmv]> h1).

(** options.go *)

(** A [MapperOption] is given by what it does to the object it is applied
    to.  This is what the three options of the package are; the nil
    option and an option that does something else than changing its
    argument are not values of this type. *)
Definition MapperOption : Type := mapper -> mapper.

Definition WithFieldMapper (fm : option FieldMapperFn) : MapperOption :=
  let fm := match fm with None => Some Direct | Some f => Some f end in
  fun m => {| fields := fields m; cols := cols m; target := target m;
              Comma := Comma m; Mark := Mark m; FieldMapper := fm |}.

Definition WithComma (comma : Z) : MapperOption :=
  fun m => {| fields := fields m; cols := cols m; target := target m;
              Comma := comma; Mark := Mark m; FieldMapper := FieldMapper m |}.

Definition WithMark (mark : Z) : MapperOption :=
  fun m => {| fields := fields m; cols := cols m; target := target m;
              Comma := Comma m; Mark := mark; FieldMapper := FieldMapper m |}.

(** [SetOptions] applies the options in turn to the object [p] points to
    and returns [p]. *)
Fixpoint SetOptions (p : ptr) (opts : list MapperOption) (h : store)
    : result (ptr * store) :=
  match opts with
  | [] => Ok (p, h)
  | opt :: opts' =>
      m ← deref h p;
      SetOptions p opts' (<[p := opt m]> h)
  end.

(** *** The column and placeholder strings *)

Definition at0 (l : list string) : result string :=
  match l !! 0 with
  | Some c => Ok c
  | None => Panic (RuntimeError "index out of range")
  end.

Definition ColumnsString (m : mapper) : result string :=
  if (length (cols m) =? 1)%nat then at0 (cols m)
  else
    let n := (Z.of_nat (length (cols m)) - 1)%Z in
    let n := fold_left (fun n c => (n + Strings.len c)%Z) (cols m) n in
    b ← Strings.Builder.Grow Strings.Builder.zero n;
    c0 ← at0 (cols m);
    let b := Strings.Builder.WriteString b c0 in
    let b := fold_left
               (fun b s => Strings.Builder.WriteString
                             (Strings.Builder.WriteRune b (Comma m)) s)
               (tail (cols m)) b in
    Ok (Strings.Builder.String b).

Definition ColumnsStringPrefix (m : mapper) (pre : string) : result string :=
  if (length (cols m) =? 1)%nat then c0 ← at0 (cols m); Ok (pre ++ c0)%string
  else
    let n := (Z.of_nat (length (cols m)) - 1)%Z in
    let n := fold_left (fun n c => (n + (Strings.len c + Strings.len pre))%Z)
               (cols m) n in
    b ← Strings.Builder.Grow Strings.Builder.zero n;
    c0 ← at0 (cols m);
    let b := Strings.Builder.WriteString b (pre ++ c0)%string in
    let b := fold_left
               (fun b s => Strings.Builder.WriteString
                             (Strings.Builder.WriteRune b (Comma m))
                             (pre ++ s)%string)
               (tail (cols m)) b in
    Ok (Strings.Builder.String b).

(** [for i := 0; i < len(m.cols)-1; i++ { WriteRune(Comma); WriteRune(Mark) }] *)
Fixpoint marks_loop (m : mapper) (k : nat) (b : Strings.Builder.t) : Strings.Builder.t :=
  match k with
  | O => b
  | S k' =>
      marks_loop m k'
        (Strings.Builder.WriteRune (Strings.Builder.WriteRune b (Comma m)) (Mark m))
  end.

(** [Marks] returns a string of n [Mark] separated by [Comma], where n is
    the number of mapped fields. *)
Definition Marks (m : mapper) : result string :=
  if (length (cols m) =? 1)%nat then Ok (Utf8.EncodeRune (Mark m))
  else
    let n := (2 * Z.of_nat (length (cols m)) - 1)%Z in
    b ← Strings.Builder.Grow Strings.Builder.zero n;
    let b := Strings.Builder.WriteRune b (Mark m) in
    let b := marks_loop m (length (cols m) - 1) b in
    Ok (Strings.Builder.String b).

(** *** Addrs and Values *)

(** [for _, i := range m.fields { res = append(res, get(i)) }] *)
Fixpoint collect (get : nat -> result any) (idxs : list nat) (res : list any)
    : result (list any) :=
  match idxs with
  | [] => Ok res
  | i :: idxs' => x ← get i; collect get idxs' (res ++ [x])
  end.

(** [Addrs] returns all mapped fields of [dest] as addressable interfaces. *)
Definition Addrs (m : mapper) (mem : memory) (dest : any) : result (list any) :=
  let v := ValueOf dest in
  t ← Value_Type v;
  if negb (Kind_eqb (kind t) Pointer) then
    Panic (PanicString "destination not a pointer")
  else
    v ← Value_Elem mem v;
    t ← Value_Type v;
    if negb (Kind_eqb (kind t) Struct) then
      Panic (PanicString "destination not a struct pointer")
    else
      collect (fun i => f ← Value_Field v i; a ← Value_Addr f; Value_Interface a)
        (fields m) [].

(** [Values] of [dest] as a slice of interfaces.  The second test is on
    [reflect.TypeOf(v)], the type of the [reflect.Value] [v] itself. *)
Definition Values (m : mapper) (mem : memory) (dest : any) : result (list any) :=
  let v := ValueOf dest in
  k ← KindOf (TypeOf dest);
  v ← (if Kind_eqb k Pointer then Value_Elem mem v else Ok v);
  if negb (Kind_eqb (kind rtype_of_Value) Struct) then
    Panic (PanicString "destination not a struct")
  else
    collect (fun i => f ← Value_Field v i; Value_Interface f) (fields m) [].

(** * Specification *)

(** ** Vocabulary of the specification

    These definitions follow the words of the specification, not the
    code; the theorems compare them with the code above. *)

(** A tag value ending in [,ignore] excludes the field. *)
Definition ignored (key : string) (f : StructField) : bool :=
  Strings.HasSuffix (Get (Tag f) key) ",ignore".

(** The fields that can take part in a correspondence. *)
Definition exportable (key : string) (f : StructField) : bool :=
  IsExported f && negb (ignored key f).

(** The resolved name of a field: its tag value when a non-empty tag is
    present, otherwise the lowercased declared name. *)
Definition resolved_name (key : string) (f : StructField) : string :=
  if String.eqb (Get (Tag f) key) EmptyString then Strings.ToLower (Name f)
  else Get (Tag f) key.

(** The fields of a record type with their positions, from [i] on. *)
Fixpoint positioned (i : nat) (fs : list StructField) : list (nat * StructField) :=
  match fs with
  | [] => []
  | f :: fs' => (i, f) :: positioned (S i) fs'
  end.

(** The exportable fields as (position, resolved name), in declaration
    order. *)
Definition resolvable (key : string) (fs : list StructField) : list (nat * string) :=
  map (fun pf : nat * StructField => (pf.1, resolved_name key pf.2))
    (List.filter (fun pf : nat * StructField => exportable key pf.2) (positioned 0 fs)).

(** Position of the first occurrence of a name in a list. *)
Fixpoint position (fs : list string) (name : string) : option nat :=
  match fs with
  | [] => None
  | f :: fs' => if String.eqb f name then Some 0 else S <$> position fs' name
  end.

(** Removal of the entry at [i] by overwriting it with the last entry and
    shrinking by one. *)
Definition swap_delete (columns : list string) (i : nat) : list string :=
  match last columns with
  | Some x => take (length columns - 1) (<[i := x]> columns)
  | None => columns
  end.

(** The requested-column filter over the fields from position [i] on: the
    (position, column) pairs of the fields that pass it, and the requested
    names that remain unmatched at the end.  The duplicate check is not
    part of it. *)
Fixpoint scan (key : string) (jok : bool) (columns : list string) (i : nat)
    (fs : list StructField) : list (nat * string) * list string :=
  match fs with
  | [] => ([], columns)
  | f :: fs' =>
      if exportable key f then
        let col := resolved_name key f in
        if jok then
          let '(sel, rest) := scan key jok columns (S i) fs' in ((i, col) :: sel, rest)
        else
          match position columns col with
          | None => scan key jok columns (S i) fs'
          | Some k =>
              let '(sel, rest) := scan key jok (swap_delete columns k) (S i) fs' in
              ((i, col) :: sel, rest)
          end
      else scan key jok columns (S i) fs'
  end.

(** The fields that pass the requested-column filter, and the requested
    names left unmatched. *)
Definition passing (key : string) (columns : list string) (fs : list StructField)
    : list (nat * string) :=
  (scan key (joker columns) columns 0 fs).1.

Definition unmatched (key : string) (columns : list string) (fs : list StructField)
    : list string :=
  (scan key (joker columns) columns 0 fs).2.

(** The first name of [l] that occurs in [seen] or earlier in [l]. *)
Fixpoint first_dup (seen l : list string) : option string :=
  match l with
  | [] => None
  | c :: l' =>
      if bool_decide (c ∈ seen) then Some c else first_dup (seen ++ [c]) l'
  end.

(** The mapper after appending the pairs [sel]. *)
Definition extend (m : mapper) (sel : list (nat * string)) : mapper :=
  {| fields := fields m ++ map fst sel;
     cols := cols m ++ map snd sel;
     target := target m;
     Comma := Comma m;
     Mark := Mark m;
     FieldMapper := FieldMapper m |}.

(** The two fatal messages of construction the claims are about. *)
Definition duplicate_violation (col : string) : panic :=
  PanicString ("Field " ++ col ++ " is mapped more than once")%string.

Definition missing_violation (names : list string) : panic :=
  PanicString ("Some fields are missing from target: " ++ Strings.Join names ",")%string.

(** The invariant of a Correspondence. *)
Definition invariant (m : mapper) : Prop :=
  length (cols m) = length (fields m)
  ∧ NoDup (cols m)
  ∧ ∃ name fs, target m = TStruct name fs
      ∧ ∀ i, i ∈ fields m → ∃ f, fs !! i = Some f ∧ IsExported f = true.

(** Same configuration and same record type. *)
Definition same_config (m nm : mapper) : Prop :=
  Comma nm = Comma m ∧ Mark nm = Mark m ∧ FieldMapper nm = FieldMapper m
  ∧ target nm = target m.

(** The entries of a Correspondence: its columns paired with their field
    positions. *)
Definition entries (m : mapper) : list (string * nat) := zip (cols m) (fields m).

(** The options the package provides. *)
Inductive provided : MapperOption → Prop :=
| provided_FieldMapper fm : provided (WithFieldMapper fm)
| provided_Comma comma : provided (WithComma comma)
| provided_Mark mark : provided (WithMark mark).

(** The calls of the API that create or change mapper objects. *)
Inductive api_step : store → store → Prop :=
| step_build tgt key columns m h :
    MapperWithKey tgt key columns = Ok m → api_step h (new h m).2
| step_subset p columns h q h' :
    Subset p columns h = Ok (q, h') → api_step h h'
| step_options p opts h q h' :
    Forall provided opts →
    SetOptions p opts h = Ok (q, h') → api_step h h'.

(** The entries a [Subset] keeps: those whose column is requested. *)
Definition kept (rs : list string) (es : list (string * nat)) : list (string * nat) :=
  filter (fun cf : string * nat => cf.1 ∈ rs) es.

(** The Correspondence with the entries of [m] whose column is in [rs],
    in the order of [m], and the configuration of [m]. *)
Definition restricted (m : mapper) (rs : list string) : mapper :=
  {| fields := (kept rs (entries m)).*2;
     cols := (kept rs (entries m)).*1;
     target := target m; Comma := Comma m; Mark := Mark m;
     FieldMapper := FieldMapper m |}.

(** The Correspondence with no entry and the configuration of [m]. *)
Definition emptied (m : mapper) : mapper :=
  {| fields := []; cols := [];
     target := target m; Comma := Comma m; Mark := Mark m;
     FieldMapper := FieldMapper m |}.

(** The stores a program can reach from the empty one. *)
Inductive reachable : store → Prop :=
| reach_empty : reachable []
| reach_step h h' : reachable h → api_step h h' → reachable h'.

(** The separator as [strings.Split] takes it: [string(m.Comma)]. *)
Definition separator (m : mapper) : string := Utf8.EncodeRune (Comma m).

Definition placeholder (m : mapper) : string := Utf8.EncodeRune (Mark m).

(** A string is cut from what follows it by the separator: in the string
    followed by the separator, the separator is first found at the end. *)
Definition cut_by (sep x : string) : Prop :=
  Strings.Index (x ++ sep)%string sep = Some (String.length x).

(** A byte occurs in a string. *)
Fixpoint contains_byte (a : ascii) (s : string) : bool :=
  match s with
  | EmptyString => false
  | String b s' => Ascii.eqb a b || contains_byte a s'
  end.

(** ** Record types and instances of the test suite *)

Module Fixtures.

Definition exported (n : string) (tag : StructTag) : StructField :=
  {| Name := n; PkgPath := EmptyString; Tag := tag |}.

Definition unexported (n : string) : StructField :=
  {| Name := n; PkgPath := "mapper"; Tag := [] |}.

(** [M{}], the zero value of a struct type whose fields are strings
    when exported and integers when not. *)
Definition zero_of (t : Type_) : value :=
  match t with
  | TStruct _ fs =>
      VStruct t (map (fun f => if IsExported f then VString EmptyString else VInt 0) fs)
  | _ => VInt 0
  end.

(** [struct { A string; b int32 }] *)
Definition M_keys : Type_ := TStruct "M" [exported "A" []; unexported "b"].

(** [struct { A string `mapper:"b"`; B string }] *)
Definition M_dup : Type_ :=
  TStruct "M" [exported "A" [("mapper", "b")]; exported "B" []].

(** [struct { A string; B string }] *)
Definition M_ab : Type_ := TStruct "M" [exported "A" []; exported "B" []].

(** [struct { A, B, C, D string }] *)
Definition M_abcd : Type_ :=
  TStruct "M" [exported "A" []; exported "B" []; exported "C" []; exported "D" []].

(** [struct { A string `mapper:"x"`; B string `mapper:"x"`; C string }] *)
Definition M_xx : Type_ :=
  TStruct "M" [exported "A" [("mapper", "x")]; exported "B" [("mapper", "x")];
               exported "C" []].

(** [struct { A string `mapper:"a,b"` }] *)
Definition M_comma : Type_ := TStruct "M" [exported "A" [("mapper", "a,b")]].

(** [struct { A string `mapper:"b"` }] *)
Definition M_tag : Type_ := TStruct "M" [exported "A" [("mapper", "b")]].

(** [struct { A string; Ab string }] *)
Definition M_a_ab : Type_ := TStruct "M" [exported "A" []; exported "Ab" []].

(** The struct of [TestMapperWithKey], tagged under the key [blah]. *)
Definition M_blah : Type_ :=
  TStruct "M" [exported "A" [("blah", "d_84")]; exported "B" [("blah", "b")];
               exported "HomeAway" []; exported "GoodBye" [("blah", "good_bye")];
               exported "D" [("blah", "1")]; exported "E" [("blah", "42")]].

(** [struct { X int; Y int }], a record type no mapper here is built for. *)
Definition N_other : Type_ := TStruct "N" [exported "X" []; exported "Y" []].

(** The mapper [Mapper(M{}, "*")] builds for [M_abcd]. *)
Definition abcd : mapper :=
  {| fields := [0; 1; 2; 3]; cols := ["a"; "b"; "c"; "d"]; target := M_abcd;
     Comma := 44; Mark := 63; FieldMapper := Some Strings.ToLower |}.

(** The mapper [Mapper(M{}, "*")] builds for [M_keys]. *)
Definition keys : mapper :=
  {| fields := [0]; cols := ["a"]; target := M_keys;
     Comma := 44; Mark := 63; FieldMapper := Some Strings.ToLower |}.

(** The mapper [Mapper(M{}, "*")] builds for [M_comma]. *)
Definition comma : mapper :=
  {| fields := [0]; cols := ["a,b"]; target := M_comma;
     Comma := 44; Mark := 63; FieldMapper := Some Strings.ToLower |}.

(** The mapper [Subset()] returns for [abcd]. *)
Definition none_of_abcd : mapper :=
  {| fields := []; cols := []; target := M_abcd;
     Comma := 44; Mark := 63; FieldMapper := Some Strings.ToLower |}.

(** An instance of [M_keys] and an instance of [N_other]. *)
Definition a_keys : value := VStruct M_keys [VString "x"; VInt 3].

Definition an_other : value := VStruct N_other [VInt 5; VInt 6].

End Fixtures.

(** [Mapper(M{}, columns...).Columns()] and its variant with a key. *)
Definition columns_of (t : Type_) (key : string) (columns : list string)
    : result (list string) :=
  m ← MapperWithKey (Some (Fixtures.zero_of t)) key columns;
  Ok (Columns m).

(** [dut.Subset(rs...).Columns()], with the pointer [Subset] returned. *)
Definition subset_columns (p : ptr) (rs : list string) (h : store)
    : result (ptr * list string) :=
  qh ← Subset p rs h;
  m ← deref qh.2 qh.1;
  Ok (qh.1, Columns m).

(** * Proofs *)

(** ** The fieldSlice helpers *)

Lemma String_eqb_decide (a b : string) : String.eqb a b = bool_decide (a = b).
Proof.
  destruct (String.eqb_spec a b) as [->|Hne].
  - by rewrite bool_decide_eq_true_2.
  - by rewrite bool_decide_eq_false_2.
Qed.

Lemma joker_elem (fs : list string) : joker fs = true ↔ "*" ∈ fs.
Proof.
  induction fs as [|f fs IH]; simpl.
  - split; [done | by intros ?%elem_of_nil].
  - rewrite elem_of_cons. destruct (String.eqb_spec f "*") as [->|Hne].
    + split; auto.
    + rewrite IH. split; [auto | intros [Heq|?]; [congruence | done]].
Qed.

Lemma index_from_position (i : Z) (fs : list string) (name : string) :
  index_from i fs name =
  match position fs name with
  | Some k => (i + Z.of_nat k)%Z
  | None => (-1)%Z
  end.
Proof.
  revert i. induction fs as [|f fs IH]; intros i; simpl; [done|].
  destruct (String.eqb f name).
  - simpl. lia.
  - rewrite IH. destruct (position fs name); simpl; [lia | done].
Qed.

Lemma index_position (fs : list string) (name : string) :
  index fs name =
  match position fs name with
  | Some k => Z.of_nat k
  | None => (-1)%Z
  end.
Proof.
  unfold index. rewrite index_from_position. by destruct (position fs name).
Qed.

Lemma position_None (fs : list string) (name : string) :
  position fs name = None ↔ name ∉ fs.
Proof.
  induction fs as [|f fs IH]; simpl.
  - split; [intros _; apply not_elem_of_nil | done].
  - rewrite not_elem_of_cons. destruct (String.eqb_spec f name) as [->|Hne].
    + split; [done | intros [? _]; done].
    + destruct (position fs name); simpl.
      * split; [done|]. intros [_ Hn]. by apply IH in Hn.
      * split; [|done]. intros _. split; [congruence | by apply IH].
Qed.

Lemma position_Some (fs : list string) (name : string) (k : nat) :
  position fs name = Some k →
  fs !! k = Some name ∧ ∀ j, (j < k)%nat → fs !! j ≠ Some name.
Proof.
  revert k. induction fs as [|f fs IH]; intros k; simpl; [done|].
  destruct (String.eqb_spec f name) as [->|Hne].
  - intros [= <-]. split; [done | intros j Hj; lia].
  - destruct (position fs name) as [k'|]; simpl; [|done].
    intros [= <-]. destruct (IH k' eq_refl) as [Hk Hlt]. split; [done|].
    intros [|j] Hj; simpl; [congruence | apply Hlt; lia].
Qed.

Lemma index_absent (fs : list string) (name : string) :
  (index fs name =? -1)%Z = bool_decide (name ∉ fs).
Proof.
  rewrite index_position. destruct (position fs name) as [k|] eqn:Hp.
  - rewrite bool_decide_eq_false_2.
    + apply Z.eqb_neq. lia.
    + intros Hn. apply position_None in Hn. congruence.
  - rewrite bool_decide_eq_true_2; [done | by apply position_None].
Qed.

(** ** Deleting without preserving order *)

Lemma delete_unordered_swap (columns : list string) (k : nat) :
  (k < length columns)%nat →
  delete_unordered columns k = Ok (swap_delete columns k).
Proof.
  intros Hk. unfold delete_unordered, swap_delete.
  rewrite last_lookup.
  replace (pred (length columns)) with (length columns - 1)%nat by lia.
  destruct (columns !! (length columns - 1)%nat) as [x|] eqn:Hx.
  - apply Nat.ltb_lt in Hk. by rewrite Hk.
  - apply lookup_ge_None in Hx. lia.
Qed.

Lemma swap_delete_perm (columns : list string) (k : nat) (c : string) :
  columns !! k = Some c → c :: swap_delete columns k ≡ₚ columns.
Proof.
  intros Hk. unfold swap_delete.
  induction columns as [|x l _] using rev_ind; [done|].
  rewrite last_snoc, length_app. simpl.
  replace (length l + 1 - 1)%nat with (length l) by lia.
  destruct (decide (k < length l)%nat) as [Hlt|Hge].
  - rewrite lookup_app_l in Hk by done.
    rewrite insert_app_l by done.
    rewrite take_app_length' by (by rewrite length_insert).
    apply list_elem_of_split_length in Hk as (l1 & l2 & -> & ->).
    rewrite insert_app_r_alt by lia. rewrite Nat.sub_diag. simpl.
    rewrite <- !app_assoc. simpl.
    rewrite <- !Permutation_middle. by rewrite app_nil_r.
  - assert (k = length l) as ->.
    { apply lookup_lt_Some in Hk. rewrite length_app in Hk. simpl in Hk. lia. }
    rewrite lookup_app_r, Nat.sub_diag in Hk by lia. simpl in Hk.
    injection Hk as <-.
    rewrite insert_app_r_alt, Nat.sub_diag by lia. simpl.
    rewrite take_app_length. by rewrite Permutation_cons_append.
Qed.

(** ** The loop over the fields *)

Lemma candidate_spec (key : string) (m : mapper) (f : StructField) :
  FieldMapper m = Some Strings.ToLower →
  candidate key m f =
  if ignored key f then None else Some (resolved_name key f).
Proof.
  intros Hfm. unfold candidate, ignored, resolved_name. rewrite Hfm.
  destruct (String.eqb_spec (Get (Tag f) key) EmptyString) as [Ht|Ht]; simpl.
  - by rewrite Ht.
  - by destruct (Strings.HasSuffix (Get (Tag f) key) ",ignore").
Qed.

Lemma extend_nil (m : mapper) : extend m [] = m.
Proof. destruct m. unfold extend. simpl. by rewrite !app_nil_r. Qed.

Lemma extend_cons (m : mapper) (i : nat) (col : string) (sel : list (nat * string)) :
  extend (append_field m col i) sel = extend m ((i, col) :: sel).
Proof. unfold extend, append_field. simpl. by rewrite <- !app_assoc. Qed.

Lemma wanted_spec (jok : bool) (columns : list string) (col : string) :
  wanted jok columns col =
  Ok (if jok then Some columns
      else match position columns col with
           | Some k => Some (swap_delete columns k)
           | None => None
           end).
Proof.
  unfold wanted. destruct jok; simpl; [done|].
  rewrite index_position. destruct (position columns col) as [k|] eqn:Hp.
  - destruct (Z.eqb_spec (Z.of_nat k) (-1)) as [?|_]; [lia|].
    rewrite Nat2Z.id. apply position_Some in Hp as [Hk _].
    apply lookup_lt_Some in Hk. by rewrite delete_unordered_swap.
  - done.
Qed.

Lemma for_fields_scan (key : string) (jok : bool) (name : string)
    (fs suf pre : list StructField) (columns : list string) (m : mapper) :
  fs = pre ++ suf →
  FieldMapper m = Some Strings.ToLower →
  for_fields key jok (TStruct name fs) (seq (length pre) (length suf)) (columns, m) =
  match first_dup (cols m) (map snd (scan key jok columns (length pre) suf).1) with
  | Some c => Panic (duplicate_violation c)
  | None =>
      Ok ((scan key jok columns (length pre) suf).2,
          extend m (scan key jok columns (length pre) suf).1)
  end.
Proof.
  revert pre columns m. induction suf as [|f suf IH]; intros pre columns m Hfs Hfm.
  - simpl. by rewrite extend_nil.
  - assert (Hnext : fs = (pre ++ [f]) ++ suf) by (by rewrite <- app_assoc).
    assert (Hlen : length (pre ++ [f]) = S (length pre))
      by (rewrite length_app; simpl; lia).
    simpl length. simpl seq. simpl for_fields.
    rewrite Hfs at 1. rewrite lookup_app_r, Nat.sub_diag by lia. simpl.
    unfold field_step, exportable.
    destruct (IsExported f); simpl.
    2: { specialize (IH (pre ++ [f]) columns m Hnext Hfm).
         rewrite Hlen in IH. exact IH. }
    rewrite candidate_spec by done.
    destruct (ignored key f); simpl.
    { specialize (IH (pre ++ [f]) columns m Hnext Hfm).
      rewrite Hlen in IH. exact IH. }
    rewrite wanted_spec. simpl.
    set (col := resolved_name key f).
    assert (Hstep : ∀ columns',
      (if negb (index (cols m) col =? -1)%Z
       then Panic (duplicate_violation col)
       else Ok (columns', append_field m col (length pre))) ≫=
        for_fields key jok (TStruct name fs) (seq (S (length pre)) (length suf)) =
      match first_dup (cols m)
              (col :: map snd (scan key jok columns' (S (length pre)) suf).1) with
      | Some c => Panic (duplicate_violation c)
      | None =>
          Ok ((scan key jok columns' (S (length pre)) suf).2,
              extend m ((length pre, col) :: (scan key jok columns' (S (length pre)) suf).1))
      end).
    { intros columns'. simpl first_dup. rewrite index_absent.
      destruct (decide (col ∈ cols m)) as [Hin|Hnin].
      - rewrite bool_decide_eq_false_2 by auto.
        by rewrite bool_decide_eq_true_2.
      - rewrite bool_decide_eq_true_2 by done.
        rewrite bool_decide_eq_false_2 by done. simpl.
        specialize (IH (pre ++ [f]) columns' (append_field m col (length pre)) Hnext Hfm).
        rewrite Hlen in IH. unfold mbind, result_bind. rewrite IH. simpl.
        by rewrite extend_cons. }
    destruct jok.
    + specialize (Hstep columns). unfold duplicate_violation in *.
      destruct (scan key true columns (S (length pre)) suf) as [sel rest] eqn:Hs.
      exact Hstep.
    + destruct (position columns col) as [k|] eqn:Hp.
      * specialize (Hstep (swap_delete columns k)). unfold duplicate_violation in *.
        destruct (scan key false (swap_delete columns k) (S (length pre)) suf)
          as [sel rest] eqn:Hs.
        exact Hstep.
      * specialize (IH (pre ++ [f]) columns m Hnext Hfm).
        rewrite Hlen in IH. exact IH.
Qed.

(** ** The requested-column filter *)

Lemma positioned_lookup (i : nat) (fs : list StructField) (p : nat) (f : StructField) :
  (p, f) ∈ positioned i fs ↔ (i ≤ p)%nat ∧ fs !! (p - i)%nat = Some f.
Proof.
  revert i. induction fs as [|f0 fs IH]; intros i; simpl.
  - split; [by intros ?%elem_of_nil | by intros [_ ?]].
  - rewrite elem_of_cons, IH. split.
    + intros [[= -> ->] | [Hle Hl]].
      * by rewrite Nat.sub_diag.
      * split; [lia|]. replace (p - i)%nat with (S (p - S i)) by lia. done.
    + intros [Hle Hl]. destruct (decide (p = i)) as [->|Hne].
      * rewrite Nat.sub_diag in Hl. simpl in Hl. left. congruence.
      * right. split; [lia|].
        replace (p - i)%nat with (S (p - S i)) in Hl by lia. done.
Qed.

Lemma scan_wild (key : string) (columns : list string) (i : nat)
    (fs : list StructField) :
  scan key true columns i fs =
  (map (fun pf : nat * StructField => (pf.1, resolved_name key pf.2))
     (List.filter (fun pf : nat * StructField => exportable key pf.2)
        (positioned i fs)),
   columns).
Proof.
  revert i. induction fs as [|f fs IH]; intros i; simpl; [done|].
  rewrite IH. by destruct (exportable key f).
Qed.

Lemma scan_sound (key : string) (jok : bool) (fs : list StructField)
    (columns : list string) (i p : nat) (c : string) :
  (p, c) ∈ (scan key jok columns i fs).1 →
  ∃ f, (i ≤ p)%nat ∧ fs !! (p - i)%nat = Some f
       ∧ exportable key f = true ∧ c = resolved_name key f.
Proof.
  revert columns i. induction fs as [|f0 fs IH]; intros columns i; simpl.
  - by intros ?%elem_of_nil.
  - assert (Hlater : ∀ columns',
      (p, c) ∈ (scan key jok columns' (S i) fs).1 →
      ∃ f, (i ≤ p)%nat ∧ (f0 :: fs) !! (p - i)%nat = Some f
           ∧ exportable key f = true ∧ c = resolved_name key f).
    { intros columns' Hin. destruct (IH _ _ Hin) as (f & Hle & Hl & He & Hc).
      exists f. split; [lia|]. split; [|done].
      replace (p - i)%nat with (S (p - S i)) by lia. done. }
    assert (Hhere : exportable key f0 = true → ∀ columns',
      (p, c) ∈ (i, resolved_name key f0) :: (scan key jok columns' (S i) fs).1 →
      ∃ f, (i ≤ p)%nat ∧ (f0 :: fs) !! (p - i)%nat = Some f
           ∧ exportable key f = true ∧ c = resolved_name key f).
    { intros He columns' [[= -> ->] | Hin]%elem_of_cons; [|by eapply Hlater].
      exists f0. by rewrite Nat.sub_diag. }
    destruct (exportable key f0) eqn:He; [|by apply Hlater].
    destruct jok.
    + specialize (Hhere eq_refl columns).
      destruct (scan key true columns (S i) fs). exact Hhere.
    + destruct (position columns (resolved_name key f0)) as [k|]; [|by apply Hlater].
      specialize (Hhere eq_refl (swap_delete columns k)).
      destruct (scan key false (swap_delete columns k) (S i) fs). exact Hhere.
Qed.

Lemma scan_positions_NoDup (key : string) (jok : bool) (fs : list StructField)
    (columns : list string) (i : nat) :
  NoDup (map fst (scan key jok columns i fs).1).
Proof.
  revert columns i. induction fs as [|f0 fs IH]; intros columns i; simpl.
  - constructor.
  - assert (Hhere : ∀ columns',
      NoDup (map fst ((i, resolved_name key f0) :: (scan key jok columns' (S i) fs).1))).
    { intros columns'. simpl. constructor; [|apply IH].
      intros [[p c] [Hp Hin]]%list_elem_of_fmap. simpl in Hp. subst p.
      apply scan_sound in Hin as (f & Hle & _). lia. }
    destruct (exportable key f0); [|apply IH].
    destruct jok.
    + specialize (Hhere columns).
      destruct (scan key true columns (S i) fs). exact Hhere.
    + destruct (position columns (resolved_name key f0)) as [k|]; [|apply IH].
      specialize (Hhere (swap_delete columns k)).
      destruct (scan key false (swap_delete columns k) (S i) fs). exact Hhere.
Qed.

Lemma scan_perm (key : string) (fs : list StructField) (columns : list string)
    (i : nat) :
  map snd (scan key false columns i fs).1 ++ (scan key false columns i fs).2
  ≡ₚ columns.
Proof.
  revert columns i. induction fs as [|f0 fs IH]; intros columns i; simpl; [done|].
  destruct (exportable key f0); [|apply IH].
  destruct (position columns (resolved_name key f0)) as [k|] eqn:Hp; [|apply IH].
  specialize (IH (swap_delete columns k) (S i)).
  destruct (scan key false (swap_delete columns k) (S i) fs) as [sel rest].
  simpl in *. rewrite IH. apply swap_delete_perm.
  by apply position_Some in Hp as [? _].
Qed.

(** ** The duplicate check *)

Lemma first_dup_None (seen l : list string) :
  first_dup seen l = None ↔ NoDup l ∧ ∀ c, c ∈ l → c ∉ seen.
Proof.
  revert seen. induction l as [|c l IH]; intros seen; simpl.
  - split; [|done]. intros _. split; [constructor | by intros ? ?%elem_of_nil].
  - destruct (decide (c ∈ seen)) as [Hin|Hnin].
    + rewrite bool_decide_eq_true_2 by done. split; [done|].
      intros [_ Hall]. exfalso. apply (Hall c); [left | done].
    + rewrite bool_decide_eq_false_2 by done. rewrite IH. split.
      * intros [Hnd Hall]. split.
        -- constructor; [|done]. intros Hc. apply (Hall c Hc).
           apply elem_of_app. right. left.
        -- intros c' [->|Hc']%elem_of_cons; [done|].
           intros Hs. apply (Hall c' Hc'). apply elem_of_app. by left.
      * intros [Hnd Hall]. apply NoDup_cons in Hnd as [Hc Hnd]. split; [done|].
        intros c' Hc' [Hs | ->%list_elem_of_singleton]%elem_of_app.
        -- apply (Hall c'); [by right | done].
        -- done.
Qed.

Lemma first_dup_Some (seen l : list string) (c : string) :
  first_dup seen l = Some c →
  ∃ l1 l2, l = l1 ++ c :: l2 ∧ c ∈ seen ++ l1.
Proof.
  revert seen. induction l as [|c0 l IH]; intros seen; simpl; [done|].
  destruct (decide (c0 ∈ seen)) as [Hin|Hnin].
  - rewrite bool_decide_eq_true_2 by done. intros [= <-].
    exists [], l. split; [done|]. by rewrite app_nil_r.
  - rewrite bool_decide_eq_false_2 by done. intros Hd.
    destruct (IH _ Hd) as (l1 & l2 & -> & Hc).
    exists (c0 :: l1), l2. split; [done|].
    by rewrite <- app_assoc in Hc.
Qed.

(** ** Construction on a struct *)

Lemma MapperWithKey_struct (v : value) (name : string) (fs : list StructField)
    (key : string) (columns : list string) :
  typeof v = TStruct name fs → key ≠ EmptyString → columns ≠ [] →
  MapperWithKey (Some v) key columns =
  match first_dup [] (map snd (passing key columns fs)) with
  | Some c => Panic (duplicate_violation c)
  | None =>
      if negb (joker columns) && negb (length (unmatched key columns fs) =? 0)%nat
      then Panic (missing_violation (unmatched key columns fs))
      else Ok (extend (new_mapper (TStruct name fs)) (passing key columns fs))
  end.
Proof.
  intros Hty Hkey Hcols. unfold MapperWithKey.
  destruct (String.eqb_spec key EmptyString) as [?|_]; [done|].
  simpl. rewrite Hty. simpl.
  destruct columns as [|c0 columns]; [done|]. simpl length. simpl Nat.eqb. cbv iota.
  pose proof (for_fields_scan key (joker (c0 :: columns)) name fs fs []
                (c0 :: columns) (new_mapper (TStruct name fs)) eq_refl eq_refl) as Hloop.
  simpl length in Hloop. unfold mbind at 1, result_bind at 1.
  unfold mbind, result_bind. rewrite Hloop. unfold passing, unmatched. simpl cols.
  destruct (first_dup [] _); [done|]. done.
Qed.

Lemma passing_wild (key : string) (columns : list string) (fs : list StructField) :
  joker columns = true → passing key columns fs = resolvable key fs.
Proof. intros Hj. unfold passing, resolvable. rewrite Hj. by rewrite scan_wild. Qed.

Lemma positioned_fst_snd (i : nat) (fs : list StructField) :
  map snd (positioned i fs) = fs ∧ map fst (positioned i fs) = seq i (length fs).
Proof.
  revert i. induction fs as [|f fs IH]; intros i; simpl; [done|].
  destruct (IH (S i)) as [-> ->]. done.
Qed.

Lemma resolvable_names (key : string) (fs : list StructField) :
  map snd (resolvable key fs) =
  map (resolved_name key) (List.filter (exportable key) fs).
Proof.
  unfold resolvable. generalize 0. induction fs as [|f fs IH]; intros i; simpl; [done|].
  destruct (exportable key f); simpl; by rewrite IH.
Qed.

Lemma MapperWithKey_Ok (v : value) (name : string) (fs : list StructField)
    (key : string) (columns : list string) (m : mapper) :
  typeof v = TStruct name fs →
  MapperWithKey (Some v) key columns = Ok m →
  m = extend (new_mapper (TStruct name fs)) (passing key columns fs)
  ∧ NoDup (map snd (passing key columns fs))
  ∧ (joker columns = false → unmatched key columns fs = []).
Proof.
  intros Hty Hm.
  assert (key ≠ EmptyString) as Hkey.
  { intros ->. discriminate Hm. }
  assert (columns ≠ []) as Hcols.
  { intros ->. unfold MapperWithKey in Hm.
    destruct (String.eqb_spec key EmptyString) as [?|_]; [done|].
    simpl in Hm. rewrite Hty in Hm. simpl in Hm. discriminate Hm. }
  rewrite (MapperWithKey_struct v name fs) in Hm by done.
  destruct (first_dup [] _) eqn:Hd; [done|].
  apply first_dup_None in Hd as [Hnd _].
  destruct (joker columns); simpl in Hm.
  - injection Hm as <-. done.
  - destruct (unmatched key columns fs) as [|u us] eqn:Hu; simpl in Hm; [|done].
    injection Hm as <-. done.
Qed.

(** A wildcard build succeeds as soon as the resolved names of the
    exported, not ignored fields are pairwise distinct. *)
Lemma wildcard_build (v : value) (name : string) (fs : list StructField)
    (key : string) (columns : list string) :
  typeof v = TStruct name fs → key ≠ EmptyString → joker columns = true →
  NoDup (map (resolved_name key) (List.filter (exportable key) fs)) →
  MapperWithKey (Some v) key columns
  = Ok (extend (new_mapper (TStruct name fs)) (resolvable key fs)).
Proof.
  intros Hty Hkey Hj Hnd.
  rewrite (MapperWithKey_struct v name fs) by (try done; by destruct columns).
  rewrite passing_wild by done. rewrite Hj. simpl.
  rewrite resolvable_names.
  by rewrite (proj2 (first_dup_None [] _) (conj Hnd (fun c _ => not_elem_of_nil c))).
Qed.

Lemma resolvable_elem (key : string) (fs : list StructField) (p : nat) (c : string) :
  (p, c) ∈ resolvable key fs ↔
  ∃ f, fs !! p = Some f ∧ exportable key f = true ∧ c = resolved_name key f.
Proof.
  unfold resolvable. rewrite list_elem_of_fmap. split.
  - intros ([p' f] & [= -> ->] & Hin). simpl.
    apply list_elem_of_In, filter_In in Hin as [Hin He].
    apply list_elem_of_In, positioned_lookup in Hin as [_ Hl].
    rewrite Nat.sub_0_r in Hl. by exists f.
  - intros (f & Hl & He & ->). exists (p, f). split; [done|].
    apply list_elem_of_In, filter_In. split; [|done].
    apply list_elem_of_In, positioned_lookup. rewrite Nat.sub_0_r. split; [lia | done].
Qed.

Lemma passing_aligned (key : string) (columns : list string) (fs : list StructField)
    (m : mapper) (k i : nat) :
  m = extend (new_mapper (target m)) (passing key columns fs) →
  fields m !! k = Some i →
  ∃ c, cols m !! k = Some c ∧ (i, c) ∈ passing key columns fs.
Proof.
  intros Hm Hk. rewrite Hm in Hk |- *. simpl in *.
  rewrite list_lookup_fmap in Hk. rewrite list_lookup_fmap.
  destruct (passing key columns fs !! k) as [[i' c]|] eqn:Hl; simpl in *; [|done].
  injection Hk as ->. exists c. split; [done|].
  by apply list_elem_of_lookup_2 in Hl.
Qed.

(** ** Claims about construction *)

(** C1. For a struct type built with a wildcard request, [Columns()] is
    exactly the resolved names of the exported fields that are not tagged
    [,ignore], in declaration order, where the resolved name is the tag
    value when a non-empty tag is present and the lowercased declared name
    otherwise.  Under any request, wildcard or explicit, every mapped
    position is that of an exported field whose tag does not end in
    [,ignore], and the column at the same rank is its resolved name. *)
Theorem C1_wildcard_columns (v : value) (name : string) (fs : list StructField)
    (key : string) (columns : list string) (m : mapper) :
  typeof v = TStruct name fs →
  MapperWithKey (Some v) key columns = Ok m →
  (joker columns = true →
     Columns m =
     map (resolved_name key)
       (List.filter (fun f => IsExported f && negb (ignored key f)) fs))
  ∧ (∀ k i, fields m !! k = Some i →
       ∃ f, fs !! i = Some f ∧ IsExported f = true ∧ ignored key f = false
            ∧ Columns m !! k = Some (resolved_name key f)).
Proof.
  intros Hty Hm. destruct (MapperWithKey_Ok _ _ _ _ _ _ Hty Hm) as (Hext & _ & _).
  split.
  - intros Hj. rewrite Hext. unfold Columns. simpl.
    rewrite passing_wild by done. apply resolvable_names.
  - intros k i Hk.
    assert (target m = TStruct name fs) as Ht by (by rewrite Hext).
    rewrite <- Ht in Hext.
    destruct (passing_aligned _ _ _ _ _ _ Hext Hk) as (c & Hc & Hin).
    apply scan_sound in Hin as (f & _ & Hl & He & ->).
    rewrite Nat.sub_0_r in Hl. exists f.
    unfold exportable in He. apply andb_true_iff in He as [He Hi].
    apply negb_true_iff in Hi. done.
Qed.

Lemma C1_wildcard_columns_witness :
  Columns Fixtures.keys = ["a"]
  ∧ ∃ f, [Fixtures.exported "A" []; Fixtures.unexported "b"] !! 0 = Some f
         ∧ IsExported f = true.
Proof.
  destruct (C1_wildcard_columns (Fixtures.zero_of Fixtures.M_keys) "M"
              [Fixtures.exported "A" []; Fixtures.unexported "b"]
              "mapper" ["*"] Fixtures.keys eq_refl eq_refl) as [Hw Ha].
  split.
  - exact (Hw eq_refl).
  - destruct (Ha 0 0 eq_refl) as (f & Hl & He & _). exists f. split; [exact Hl | exact He].
Defined.

Lemma duplicate_named (sel : list (nat * string)) (col : string) :
  NoDup (map fst sel) →
  first_dup [] (map snd sel) = Some col →
  ∃ i j, i ≠ j ∧ (i, col) ∈ sel ∧ (j, col) ∈ sel.
Proof.
  intros Hnd Hd. apply first_dup_Some in Hd as (l1 & l2 & Hl & Hc). simpl in Hc.
  apply fmap_app_inv in Hl as (s1 & s2' & -> & Hs2 & ->).
  destruct s2' as [|[j cj] s2]; [done|]. simpl in Hs2. injection Hs2 as -> ->.
  apply list_elem_of_fmap in Hc as ([i ci] & Hcc & Hin). simpl in Hcc. subst ci.
  exists i, j. split; [|split].
  - intros ->. rewrite fmap_app in Hnd. apply NoDup_app in Hnd as (_ & Hdis & _).
    apply (Hdis j).
    + apply list_elem_of_fmap. by exists (j, cj).
    + simpl. left.
  - apply elem_of_app. by left.
  - apply elem_of_app. right. left.
Qed.

Lemma duplicate_found (sel : list (nat * string)) (i j : nat) (c : string) :
  i ≠ j → (i, c) ∈ sel → (j, c) ∈ sel →
  ∃ col, first_dup [] (map snd sel) = Some col.
Proof.
  intros Hne Hi Hj. destruct (first_dup [] (map snd sel)) as [col|] eqn:Hd; [by exists col|].
  exfalso. apply first_dup_None in Hd as [Hnd _].
  apply list_elem_of_lookup in Hi as [ki Hi], Hj as [kj Hj].
  assert (ki = kj) as ->.
  { apply (NoDup_lookup (map snd sel) ki kj c); [done| |].
    - by rewrite list_lookup_fmap, Hi.
    - by rewrite list_lookup_fmap, Hj. }
  congruence.
Qed.

(** C2. When two different fields resolve to the same column name and both
    pass the requested-column filter, construction panics with
    ["Field <col> is mapped more than once"], where <col> is a column two
    different passing fields resolve to.  Under a wildcard request every
    exported field not tagged [,ignore] passes, so two such fields with
    the same resolved name are enough. *)
Theorem C2_duplicate_column_violation (v : value) (name : string)
    (fs : list StructField) (key : string) (columns : list string) :
  typeof v = TStruct name fs → key ≠ EmptyString → columns ≠ [] →
  (∀ i j c, i ≠ j →
     (i, c) ∈ passing key columns fs → (j, c) ∈ passing key columns fs →
     ∃ col i' j', i' ≠ j'
       ∧ (i', col) ∈ passing key columns fs ∧ (j', col) ∈ passing key columns fs
       ∧ MapperWithKey (Some v) key columns
         = Panic (PanicString ("Field " ++ col ++ " is mapped more than once")%string))
  ∧ (joker columns = true →
     ∀ i j f g, i ≠ j → fs !! i = Some f → fs !! j = Some g →
       IsExported f = true → ignored key f = false →
       IsExported g = true → ignored key g = false →
       resolved_name key f = resolved_name key g →
       ∃ col i' j' f' g', i' ≠ j' ∧ fs !! i' = Some f' ∧ fs !! j' = Some g'
         ∧ resolved_name key f' = col ∧ resolved_name key g' = col
         ∧ MapperWithKey (Some v) key columns
           = Panic (PanicString ("Field " ++ col ++ " is mapped more than once")%string)).
Proof.
  intros Hty Hkey Hcols.
  assert (Hgen : ∀ i j c, i ≠ j →
     (i, c) ∈ passing key columns fs → (j, c) ∈ passing key columns fs →
     ∃ col i' j', i' ≠ j'
       ∧ (i', col) ∈ passing key columns fs ∧ (j', col) ∈ passing key columns fs
       ∧ MapperWithKey (Some v) key columns = Panic (duplicate_violation col)).
  { intros i j c Hne Hi Hj.
    destruct (duplicate_found _ _ _ _ Hne Hi Hj) as [col Hd].
    destruct (duplicate_named _ col (scan_positions_NoDup _ _ _ _ _) Hd)
      as (i' & j' & Hne' & Hi' & Hj').
    exists col, i', j'. repeat split; try done.
    rewrite (MapperWithKey_struct v name fs) by done. by rewrite Hd. }
  split; [exact Hgen|].
  intros Hj i j f g Hne Hi Hg Hef Hif Heg Hig Hsame.
  assert (exportable key f = true) as Hxf by (unfold exportable; by rewrite Hef, Hif).
  assert (exportable key g = true) as Hxg by (unfold exportable; by rewrite Heg, Hig).
  destruct (Hgen i j (resolved_name key f) Hne) as (col & i' & j' & Hne' & Hi' & Hj' & Hp).
  - rewrite passing_wild by done. apply resolvable_elem. by exists f.
  - rewrite passing_wild by done. apply resolvable_elem. by exists g.
  - rewrite passing_wild in Hi', Hj' by done.
    apply resolvable_elem in Hi' as (f' & Hf' & _ & ->).
    apply resolvable_elem in Hj' as (g' & Hg' & _ & Hgc).
    exists (resolved_name key f'), i', j', f', g'. repeat split; try done.
Qed.

Lemma C2_duplicate_column_violation_witness :
  ∃ col, Mapper (Some (Fixtures.zero_of Fixtures.M_dup)) ["*"]
         = Panic (PanicString ("Field " ++ col ++ " is mapped more than once")%string).
Proof.
  destruct (C2_duplicate_column_violation (Fixtures.zero_of Fixtures.M_dup) "M"
              [Fixtures.exported "A" [("mapper", "b")]; Fixtures.exported "B" []]
              "mapper" ["*"] eq_refl ltac:(discriminate) ltac:(discriminate))
    as [_ Hw].
  destruct (Hw eq_refl 0 1 _ _ ltac:(discriminate) eq_refl eq_refl
              eq_refl eq_refl eq_refl eq_refl eq_refl)
    as (col & _ & _ & _ & _ & _ & _ & _ & _ & _ & Hp).
  exists col. exact Hp.
Defined.

(** The tests of the repository on [Columns()]. *)
Example TestKeys : columns_of Fixtures.M_keys "mapper" ["*"] = Ok ["a"].
Proof. reflexivity. Qed.

Example TestTag : columns_of Fixtures.M_tag "mapper" ["*"] = Ok ["b"].
Proof. reflexivity. Qed.

Example TestDefaultFieldMapper :
  columns_of Fixtures.M_a_ab "mapper" ["*"] = Ok ["a"; "ab"].
Proof. reflexivity. Qed.

Example TestMapperWithKey :
  columns_of Fixtures.M_blah "blah" ["*"]
  = Ok ["d_84"; "b"; "homeaway"; "good_bye"; "1"; "42"].
Proof. reflexivity. Qed.

Example TestMapperStructSubset : columns_of Fixtures.M_ab "mapper" ["a"] = Ok ["a"].
Proof. reflexivity. Qed.

Example TestMapperUnknownField :
  columns_of Fixtures.M_ab "mapper" ["a"; "c"]
  = Panic (PanicString "Some fields are missing from target: c").
Proof. reflexivity. Qed.

(** The test of the repository: [{A tag:"b"; B}] under ["*"]. *)
Example TestMapperDuplicate :
  Mapper (Some (Fixtures.zero_of Fixtures.M_dup)) ["*"]
  = Panic (PanicString "Field b is mapped more than once").
Proof. reflexivity. Qed.

(** ** The filter on pairwise-distinct requested names *)

Lemma swap_delete_NoDup (columns : list string) (k : nat) (c : string) :
  NoDup columns → columns !! k = Some c →
  NoDup (swap_delete columns k)
  ∧ (∀ x, x ∈ columns ↔ x = c ∨ x ∈ swap_delete columns k)
  ∧ c ∉ swap_delete columns k.
Proof.
  intros Hnd Hk. pose proof (swap_delete_perm _ _ _ Hk) as Hp.
  rewrite <- Hp in Hnd. apply NoDup_cons in Hnd as [Hc Hnd].
  split; [done|]. split; [|done]. intros x.
  rewrite <- Hp at 1. apply elem_of_cons.
Qed.

Lemma scan_distinct (key : string) (fs : list StructField) :
  ∀ (columns : list string) (i : nat), NoDup columns →
  (∀ c, c ∈ (scan key false columns i fs).2 ↔
        c ∈ columns
        ∧ ∀ f, f ∈ fs → exportable key f = true → resolved_name key f ≠ c)
  ∧ (∀ p c, (p, c) ∈ (scan key false columns i fs).1 ↔
        c ∈ columns
        ∧ ∃ pre f suf, fs = pre ++ f :: suf ∧ p = (i + length pre)%nat
            ∧ exportable key f = true ∧ resolved_name key f = c
            ∧ ∀ g, g ∈ pre → exportable key g = true → resolved_name key g ≠ c).
Proof.
  induction fs as [|f0 fs IH]; intros columns i Hnd.
  { simpl. split.
    - intros c. split; [|tauto]. intros Hc. split; [done|]. by intros f ?%elem_of_nil.
    - intros p c. split; [by intros ?%elem_of_nil|].
      intros (_ & pre & f & suf & Hfs & _). by destruct pre. }
  simpl.
  (* a head that takes no part: the tail decides, on the same columns *)
  assert (Hskip : (exportable key f0 = true → resolved_name key f0 ∉ columns) →
    (∀ c, c ∈ (scan key false columns (S i) fs).2 ↔
        c ∈ columns
        ∧ ∀ f, f ∈ f0 :: fs → exportable key f = true → resolved_name key f ≠ c)
    ∧ (∀ p c, (p, c) ∈ (scan key false columns (S i) fs).1 ↔
        c ∈ columns
        ∧ ∃ pre f suf, f0 :: fs = pre ++ f :: suf ∧ p = (i + length pre)%nat
            ∧ exportable key f = true ∧ resolved_name key f = c
            ∧ ∀ g, g ∈ pre → exportable key g = true → resolved_name key g ≠ c)).
  { intros Hout. destruct (IH columns (S i) Hnd) as [IHr IHs]. split.
    - intros c. rewrite IHr. split.
      + intros [Hc Hall]. split; [done|].
        intros f [->|Hf]%elem_of_cons He; [|by apply Hall].
        intros <-. by apply Hout.
      + intros [Hc Hall]. split; [done|]. intros f Hf. apply Hall. by right.
    - intros p c. rewrite IHs. split.
      + intros (Hc & pre & f & suf & -> & -> & He & Hr & Hpre). split; [done|].
        exists (f0 :: pre), f, suf. simpl. split_and!; try done; try lia.
        intros g [->|Hg]%elem_of_cons Heg; [|by apply Hpre].
        intros Heq. apply Hout; [done|]. by rewrite Heq.
      + intros (Hc & pre & f & suf & Hfs & -> & He & Hr & Hpre). split; [done|].
        destruct pre as [|g pre]; simpl in Hfs; injection Hfs as -> ->.
        * exfalso. apply Hout; [done|]. by rewrite Hr.
        * exists pre, f, suf. simpl. split_and!; try done; try lia.
          intros g' Hg'. apply Hpre. by right. }
  destruct (exportable key f0) eqn:He0; [|by apply Hskip].
  destruct (position columns (resolved_name key f0)) as [k|] eqn:Hp.
  2: { apply Hskip. intros _. by apply position_None. }
  clear Hskip. apply position_Some in Hp as [Hk _].
  destruct (swap_delete_NoDup _ _ _ Hnd Hk) as (Hnd' & Hmem & Hgone).
  destruct (IH (swap_delete columns k) (S i) Hnd') as [IHr IHs].
  destruct (scan key false (swap_delete columns k) (S i) fs) as [sel rest].
  simpl in *. split.
  - intros c. rewrite IHr. split.
    + intros [Hc Hall]. split; [apply Hmem; by right|].
      intros f [->|Hf]%elem_of_cons He; [|by apply Hall].
      by intros <-.
    + intros [Hc Hall]. apply Hmem in Hc as [->|Hc].
      * exfalso. apply (Hall f0); [left | done | done].
      * split; [done|]. intros f Hf. apply Hall. by right.
  - intros p c. rewrite elem_of_cons, IHs. split.
    + intros [[= -> ->] | (Hc & pre & f & suf & -> & -> & He & Hr & Hpre)].
      * split; [apply Hmem; by left|].
        exists [], f0, fs. simpl. split_and!; try done; try lia.
        by intros g ?%elem_of_nil.
      * split; [apply Hmem; by right|].
        exists (f0 :: pre), f, suf. simpl. split_and!; try done; try lia.
        intros g [->|Hg]%elem_of_cons Heg; [|by apply Hpre].
        intros Heq. apply Hgone. by rewrite Heq.
    + intros (Hc & pre & f & suf & Hfs & -> & He & Hr & Hpre).
      destruct pre as [|g pre]; simpl in Hfs; injection Hfs as -> ->.
      * left. f_equal; [simpl; lia | done].
      * right. assert (resolved_name key g ≠ c) as Hgc by (apply Hpre; [left | done]).
        apply Hmem in Hc as [->|Hc]; [done|]. split; [done|].
        exists pre, f, suf. simpl. split_and!; try done; try lia.
        intros g' Hg'. apply Hpre. by right.
Qed.

Lemma exportable_split (key : string) (f : StructField) :
  exportable key f = true ↔ IsExported f = true ∧ ignored key f = false.
Proof.
  unfold exportable. rewrite andb_true_iff, negb_true_iff. done.
Qed.

Lemma passing_distinct (key : string) (columns : list string)
    (fs : list StructField) (p : nat) (c : string) :
  joker columns = false → NoDup columns →
  (p, c) ∈ passing key columns fs ↔
  c ∈ columns
  ∧ ∃ f, fs !! p = Some f ∧ exportable key f = true ∧ resolved_name key f = c
         ∧ ∀ q g, (q < p)%nat → fs !! q = Some g → exportable key g = true →
                  resolved_name key g ≠ c.
Proof.
  intros Hj Hnd. unfold passing. rewrite Hj.
  destruct (scan_distinct key fs columns 0 Hnd) as [_ Hs]. rewrite Hs. clear Hs.
  split.
  - intros (Hc & pre & f & suf & -> & -> & He & Hr & Hpre). split; [done|].
    exists f. simpl. split_and!; try done.
    + by rewrite list_lookup_middle.
    + intros q g Hq Hg. rewrite lookup_app_l in Hg by done.
      apply Hpre. by apply list_elem_of_lookup_2 in Hg.
  - intros (Hc & f & Hl & He & Hr & Hbefore). split; [done|].
    apply list_elem_of_split_length in Hl as (pre & suf & -> & ->).
    exists pre, f, suf. simpl. split_and!; try done.
    intros g [q Hg]%list_elem_of_lookup. apply (Hbefore q).
    + by apply lookup_lt_Some in Hg.
    + apply lookup_app_l_Some. done.
Qed.

Lemma loop_of_MapperWithKey (key : string) (name : string) (fs : list StructField)
    (columns : list string) :
  for_fields key (joker columns) (TStruct name fs) (seq 0 (length fs))
    (columns, new_mapper (TStruct name fs)) =
  match first_dup [] (map snd (passing key columns fs)) with
  | Some c => Panic (duplicate_violation c)
  | None =>
      Ok (unmatched key columns fs,
          extend (new_mapper (TStruct name fs)) (passing key columns fs))
  end.
Proof.
  exact (for_fields_scan key (joker columns) name fs fs [] columns
           (new_mapper (TStruct name fs)) eq_refl eq_refl).
Qed.

(** C3. In a non-wildcard construction, once the loop over the fields has
    run to its end leaving the requested names [rest] unmatched:
    construction panics with ["Some fields are missing from target: "]
    followed by [rest] comma-joined, in the order the swap-removals left
    them, when [rest] is not empty, and succeeds when it is empty.  The
    matched columns and [rest] together are the requested names; for
    pairwise-distinct requested names, [rest] holds exactly those no
    exported, not ignored field resolves to. *)
Theorem C3_missing_field_violation (v : value) (name : string)
    (fs : list StructField) (key : string) (columns rest : list string)
    (m' : mapper) :
  typeof v = TStruct name fs → key ≠ EmptyString → columns ≠ [] →
  joker columns = false →
  for_fields key (joker columns) (TStruct name fs) (seq 0 (length fs))
    (columns, new_mapper (TStruct name fs)) = Ok (rest, m') →
  (rest ≠ [] →
     MapperWithKey (Some v) key columns
     = Panic (PanicString ("Some fields are missing from target: "
                           ++ Strings.Join rest ",")%string))
  ∧ (rest = [] → MapperWithKey (Some v) key columns = Ok m')
  ∧ Columns m' ++ rest ≡ₚ columns
  ∧ (NoDup columns →
     ∀ c, c ∈ rest ↔
          c ∈ columns
          ∧ ∀ f, f ∈ fs → IsExported f = true → ignored key f = false →
                 resolved_name key f ≠ c).
Proof.
  intros Hty Hkey Hcols Hj Hloop.
  rewrite loop_of_MapperWithKey in Hloop.
  pose proof (MapperWithKey_struct v name fs key columns Hty Hkey Hcols) as Hm.
  destruct (first_dup [] _) eqn:Hd; [done|].
  injection Hloop as <- <-. rewrite Hj in Hm. simpl in Hm.
  split_and!.
  - intros Hne. rewrite Hm.
    by destruct (unmatched key columns fs).
  - intros Hr. rewrite Hm. by rewrite Hr.
  - unfold Columns, passing, unmatched. simpl. rewrite Hj. apply scan_perm.
  - intros Hnd c. unfold unmatched. rewrite Hj.
    destruct (scan_distinct key fs columns 0 Hnd) as [Hr _]. rewrite Hr.
    split; intros [Hc Hall]; (split; [done|]); intros f Hf.
    + intros He Hi. apply Hall; [done|]. by apply exportable_split.
    + intros [He Hi]%exportable_split. by apply Hall.
Qed.

Lemma C3_missing_field_violation_witness :
  Mapper (Some (Fixtures.zero_of Fixtures.M_ab)) ["a"; "c"]
  = Panic (PanicString "Some fields are missing from target: c").
Proof.
  refine (proj1 (C3_missing_field_violation (Fixtures.zero_of Fixtures.M_ab) "M"
            [Fixtures.exported "A" []; Fixtures.exported "B" []] "mapper"
            ["a"; "c"] ["c"]
            {| fields := [0]; cols := ["a"]; target := Fixtures.M_ab;
               Comma := 44; Mark := 63; FieldMapper := Some Strings.ToLower |}
            eq_refl _ _ eq_refl eq_refl) _); discriminate.
Defined.

(** C10, as the code has it.  With pairwise-distinct requested names and
    no wildcard, two exported fields resolving to the same requested name
    raise no duplicate-column violation: the loop runs to its end, the
    first such field in declaration order is mapped under that name and
    the later one is not mapped.  Construction then succeeds exactly when
    no requested name is left unmatched, and panics with the missing-field
    violation on the unmatched names otherwise; the unmatched names are
    the requested names no exported, not ignored field resolves to. *)
Theorem C10_first_field_wins (v : value) (name : string) (fs : list StructField)
    (key : string) (columns : list string) (i j : nat) (f g : StructField) :
  typeof v = TStruct name fs → key ≠ EmptyString → columns ≠ [] →
  joker columns = false → NoDup columns →
  fs !! i = Some f → fs !! j = Some g → (i < j)%nat →
  IsExported f = true → ignored key f = false →
  IsExported g = true → ignored key g = false →
  resolved_name key f = resolved_name key g →
  resolved_name key f ∈ columns →
  (∀ q h, (q < i)%nat → fs !! q = Some h → IsExported h = true →
          ignored key h = false → resolved_name key h ≠ resolved_name key f) →
  ∃ rest m',
    for_fields key (joker columns) (TStruct name fs) (seq 0 (length fs))
      (columns, new_mapper (TStruct name fs)) = Ok (rest, m')
    ∧ (∀ col, MapperWithKey (Some v) key columns
              ≠ Panic (PanicString ("Field " ++ col ++ " is mapped more than once")%string))
    ∧ (∃ k, fields m' !! k = Some i ∧ Columns m' !! k = Some (resolved_name key f))
    ∧ (j ∉ fields m')
    ∧ (MapperWithKey (Some v) key columns = Ok m' ↔ rest = [])
    ∧ (rest ≠ [] →
       MapperWithKey (Some v) key columns
       = Panic (PanicString ("Some fields are missing from target: "
                             ++ Strings.Join rest ",")%string))
    ∧ (∀ c, c ∈ rest ↔
            c ∈ columns
            ∧ ∀ h, h ∈ fs → IsExported h = true → ignored key h = false →
                   resolved_name key h ≠ c)
    ∧ ((∀ c, c ∈ columns →
          ∃ h, h ∈ fs ∧ IsExported h = true ∧ ignored key h = false
               ∧ resolved_name key h = c) →
       MapperWithKey (Some v) key columns = Ok m').
Proof.
  intros Hty Hkey Hcols Hj Hnd Hi Hg Hlt Hef Hif Heg Hig Hsame Hreq Hfirst.
  pose proof (scan_perm key fs columns 0) as Hperm.
  pose proof (MapperWithKey_struct v name fs key columns Hty Hkey Hcols) as Hm.
  rewrite loop_of_MapperWithKey.
  assert (first_dup [] (map snd (passing key columns fs)) = None) as Hd.
  { apply first_dup_None. split; [|by intros ? _ ?%elem_of_nil].
    unfold passing. rewrite Hj. rewrite <- Hperm in Hnd.
    by apply NoDup_app in Hnd as [? _]. }
  rewrite Hd in Hm |- *. rewrite Hj in Hm. simpl in Hm.
  assert (Hrest : ∀ c, c ∈ unmatched key columns fs ↔
            c ∈ columns
            ∧ ∀ h, h ∈ fs → IsExported h = true → ignored key h = false →
                   resolved_name key h ≠ c).
  { intros c. unfold unmatched. rewrite Hj.
    destruct (scan_distinct key fs columns 0 Hnd) as [Hr _]. rewrite Hr.
    split; intros [Hc Hall]; (split; [done|]); intros h Hh.
    - intros He Hig'. apply Hall; [done|]. by apply exportable_split.
    - intros [He Hig']%exportable_split. by apply Hall. }
  exists (unmatched key columns fs),
         (extend (new_mapper (TStruct name fs)) (passing key columns fs)).
  split_and!.
  - done.
  - intros col. rewrite Hm.
    destruct (length (unmatched key columns fs) =? 0)%nat; [done|].
    unfold missing_violation. intros [= Hmsg].
  - assert ((i, resolved_name key f) ∈ passing key columns fs) as Hin.
    { apply passing_distinct; [done..|]. split; [done|].
      exists f. split_and!; try done; [by apply exportable_split|].
      intros q h Hq Hh [He Hig']%exportable_split. by apply (Hfirst q). }
    apply list_elem_of_lookup in Hin as [k Hk]. exists k.
    unfold Columns. simpl. rewrite !list_lookup_fmap, Hk. done.
  - simpl. intros ([j' c] & Hjc & Hin)%list_elem_of_fmap. simpl in Hjc. subst j'.
    apply passing_distinct in Hin as (_ & g' & Hg' & _ & Hr & Hbefore); [|done..].
    rewrite Hg in Hg'. injection Hg' as <-.
    apply (Hbefore i f Hlt Hi); [by apply exportable_split|].
    by rewrite Hsame.
  - rewrite Hm. by destruct (unmatched key columns fs) as [|u us] eqn:Hu.
  - intros Hne. rewrite Hm.
    by destruct (unmatched key columns fs) as [|u us] eqn:Hu.
  - exact Hrest.
  - intros Hall. rewrite Hm.
    destruct (unmatched key columns fs) as [|u us] eqn:Hu; [done|]. exfalso.
    destruct (proj1 (Hrest u)) as [Hc Hno]; [left|].
    destruct (Hall u Hc) as (h & Hh & He & Hig' & Hru).
    by apply (Hno h Hh).
Qed.

Lemma C10_first_field_wins_witness :
  ∃ m', Mapper (Some (Fixtures.zero_of Fixtures.M_xx)) ["c"; "x"] = Ok m'
        ∧ fields m' = [0; 2] ∧ Columns m' = ["x"; "c"].
Proof.
  assert (Hnd : NoDup ["c"; "x"]) by (apply (bool_decide_unpack _); exact I).
  assert (Hin : "x" ∈ ["c"; "x"]) by (apply (bool_decide_unpack _); exact I).
  destruct (C10_first_field_wins (Fixtures.zero_of Fixtures.M_xx) "M"
              [Fixtures.exported "A" [("mapper", "x")];
               Fixtures.exported "B" [("mapper", "x")];
               Fixtures.exported "C" []]
              "mapper" ["c"; "x"] 0 1
              (Fixtures.exported "A" [("mapper", "x")])
              (Fixtures.exported "B" [("mapper", "x")])
              eq_refl ltac:(discriminate) ltac:(discriminate) eq_refl
              Hnd eq_refl eq_refl ltac:(lia) eq_refl eq_refl eq_refl eq_refl eq_refl
              Hin ltac:(intros; lia))
    as (rest & m' & Hloop & _).
  exists m'. injection Hloop as _ <-. repeat split.
Defined.

(** C10 fails as stated: [A] and [B] of
    [struct { A string `mapper:"x"`; B string `mapper:"x"`; C string }]
    both resolve to the requested name [x], the requested names [x] and
    [zz] are distinct and there is no wildcard, yet construction does not
    succeed: [zz] is left unmatched. *)
Lemma C10_counterexample :
  joker ["x"; "zz"] = false ∧ NoDup ["x"; "zz"]
  ∧ resolved_name "mapper" (Fixtures.exported "A" [("mapper", "x")]) = "x"
  ∧ resolved_name "mapper" (Fixtures.exported "B" [("mapper", "x")]) = "x"
  ∧ Mapper (Some (Fixtures.zero_of Fixtures.M_xx)) ["x"; "zz"]
    = Panic (PanicString "Some fields are missing from target: zz")
  ∧ ¬ ∃ m, Mapper (Some (Fixtures.zero_of Fixtures.M_xx)) ["x"; "zz"] = Ok m.
Proof.
  split_and!; try reflexivity.
  - apply (bool_decide_unpack _). exact I.
  - intros [m Hm]. discriminate Hm.
Qed.

(** C5. A pointer to a struct passes the kind test, which looks one level
    through the pointer, but the loop then asks the pointer type itself
    for its fields: construction panics inside package reflect. *)
Lemma MapperWithKey_pointer (v : value) (name : string) (fs : list StructField)
    (key : string) (columns : list string) :
  typeof v = TPointer (TStruct name fs) → key ≠ EmptyString → columns ≠ [] →
  MapperWithKey (Some v) key columns
  = Panic (ReflectPanic "reflect: NumField of non-struct type").
Proof.
  intros Hty Hkey Hcols. unfold MapperWithKey.
  destruct (String.eqb_spec key EmptyString) as [?|_]; [done|].
  simpl. rewrite Hty. simpl. by destruct columns.
Qed.

(** C5 at the failing input [Mapper(&M{}, "*")] for
    [M = struct { A string; b int32 }], next to [Mapper(M{}, "*")]. *)
Theorem C5_struct_pointer_target :
  Mapper (Some (VPointer Fixtures.M_keys (Some (0, [])))) ["*"]
  = Panic (ReflectPanic "reflect: NumField of non-struct type")
  ∧ Mapper (Some (Fixtures.zero_of Fixtures.M_keys)) ["*"] = Ok Fixtures.keys.
Proof. split; reflexivity. Qed.

(** ** Subset *)

Lemma SetOptions_frame (p : ptr) (opts : list MapperOption) (h : store)
    (q : ptr) (h' : store) :
  SetOptions p opts h = Ok (q, h') →
  q = p ∧ length h' = length h ∧ ∀ r, r ≠ p → h' !! r = h !! r.
Proof.
  revert h. induction opts as [|opt opts IH]; intros h; simpl.
  - intros [= <- <-]. done.
  - unfold deref. destruct (h !! p) as [m|] eqn:Hp; simpl; [|done].
    intros Hs. destruct (IH _ Hs) as (-> & Hlen & Hfr). split; [done|].
    rewrite length_insert in Hlen. split; [done|].
    intros r Hr. rewrite Hfr by done. by rewrite list_lookup_insert_ne.
Qed.

Lemma subset_loop_spec (m : mapper) (rs : list string) (cs : list string) :
  ∀ (i : nat) (nm : mapper),
  (i + length cs ≤ length (fields m))%nat →
  subset_loop m rs i cs nm =
  Ok {| fields := fields nm ++ (kept rs (zip cs (drop i (fields m)))).*2;
        cols := cols nm ++ (kept rs (zip cs (drop i (fields m)))).*1;
        target := target nm; Comma := Comma nm; Mark := Mark nm;
        FieldMapper := FieldMapper nm |}.
Proof.
  induction cs as [|c cs IH]; intros i nm Hlen; simpl.
  - destruct nm. simpl. by rewrite !app_nil_r.
  - simpl in Hlen.
    destruct (fields m !! i) as [fi|] eqn:Hfi.
    2: { apply lookup_ge_None in Hfi. lia. }
    rewrite (drop_S _ _ _ Hfi). simpl. unfold kept.
    rewrite filter_cons. simpl. rewrite index_absent.
    destruct (decide (c ∈ rs)) as [Hin|Hnin].
    + rewrite bool_decide_eq_false_2 by auto. simpl.
      rewrite IH by lia. simpl. by rewrite <- !app_assoc.
    + rewrite bool_decide_eq_true_2 by done. simpl.
      rewrite IH by lia. done.
Qed.

Lemma Subset_spec (h : store) (p : ptr) (m : mapper) (rs : list string) :
  h !! p = Some m → (length (cols m) ≤ length (fields m))%nat →
  Subset p rs h =
  Ok (if bool_decide (rs = []) then (length h, h ++ [emptied m])
      else if joker rs then (p, h ++ [emptied m])
      else (length h, h ++ [restricted m rs])).
Proof.
  intros Hp Hlen. unfold Subset, deref. rewrite Hp. simpl.
  destruct rs as [|r rs]; [done|].
  rewrite bool_decide_eq_false_2 by done. simpl length. simpl Nat.eqb. cbv iota.
  destruct (joker (r :: rs)); [done|].
  rewrite subset_loop_spec by (simpl; lia). simpl.
  rewrite drop_0. rewrite insert_app_r_alt, Nat.sub_diag by lia. done.
Qed.

Lemma kept_entries (rs : list string) (es : list (string * nat)) :
  zip (kept rs es).*1 (kept rs es).*2 = kept rs es.
Proof. apply zip_fst_snd. Qed.

Lemma kept_columns (rs : list string) (l : list string) (k : list nat) :
  length l = length k →
  (kept rs (zip l k)).*1 = filter (fun c => c ∈ rs) l.
Proof.
  revert k. induction l as [|c l IH]; intros [|i k] Hlen; simpl in *; try done.
  unfold kept in *. rewrite !filter_cons. simpl.
  destruct (decide (c ∈ rs)); simpl; rewrite IH by lia; done.
Qed.

(** C4. [Subset] on a Correspondence [m] held at [p].  With no requested
    name it returns a pointer to a new object with no column, no field
    and the configuration of [m]; with ["*"] among the requested names it
    returns [p] itself; otherwise it returns a pointer to a new object
    whose entries are the (column, field position) pairs of [m] whose
    column is requested, in the order of [m].  A new object is
    independent: [m] is unchanged at [p] and stays so whatever options
    are set through the returned pointer, while under ["*"] an option set
    through the returned pointer changes the object at [p]. *)
Theorem C4_subset (h : store) (p : ptr) (m : mapper) (rs : list string) :
  h !! p = Some m → length (cols m) = length (fields m) →
  ∃ q h' nm,
    Subset p rs h = Ok (q, h') ∧ h' !! q = Some nm ∧ h' !! p = Some m
    ∧ (rs = [] →
         q ≠ p ∧ h !! q = None ∧ same_config m nm
         ∧ Columns nm = [] ∧ fields nm = [])
    ∧ (joker rs = true → q = p ∧ nm = m)
    ∧ (rs ≠ [] → joker rs = false →
         q ≠ p ∧ h !! q = None ∧ same_config m nm
         ∧ entries nm = filter (fun cf : string * nat => cf.1 ∈ rs) (entries m)
         ∧ Columns nm = filter (fun c => c ∈ rs) (Columns m)
         ∧ length (cols nm) = length (fields nm))
    ∧ (q ≠ p → ∀ opts q' h'',
         SetOptions q opts h' = Ok (q', h'') → h'' !! p = Some m)
    ∧ (q = p → ∀ opt,
         ∃ h'', SetOptions q [opt] h' = Ok (q, h'') ∧ h'' !! p = Some (opt m)).
Proof.
  intros Hp Hlen. rewrite (Subset_spec h p m rs Hp) by lia.
  pose proof (lookup_lt_Some _ _ _ Hp) as Hlt.
  assert (Hold : (h ++ [emptied m]) !! p = Some m) by (by apply lookup_app_l_Some).
  assert (Hfree : h !! length h = None) by (by apply lookup_ge_None).
  assert (Hindep : ∀ (nm : mapper) opts q' h'',
            SetOptions (length h) opts (h ++ [nm]) = Ok (q', h'') →
            h'' !! p = Some m).
  { intros nm opts q' h'' Hs. apply SetOptions_frame in Hs as (_ & _ & Hfr).
    rewrite Hfr by lia. by apply lookup_app_l_Some. }
  destruct rs as [|r rs].
  - rewrite bool_decide_eq_true_2 by done.
    exists (length h), (h ++ [emptied m]), (emptied m). split_and!.
    + done.
    + by rewrite lookup_app_r, Nat.sub_diag by lia.
    + done.
    + intros _. split_and!; try done. lia.
    + done.
    + done.
    + intros _. by eapply Hindep.
    + intros Heq. lia.
  - rewrite bool_decide_eq_false_2 by done.
    destruct (joker (r :: rs)) eqn:Hj.
    + exists p, (h ++ [emptied m]), m. split_and!.
      * done.
      * done.
      * done.
      * done.
      * done.
      * done.
      * done.
      * intros _ opt. eexists. split.
        -- simpl. unfold deref. rewrite Hold. simpl. reflexivity.
        -- apply list_lookup_insert_eq. rewrite length_app. lia.
    + exists (length h), (h ++ [restricted m (r :: rs)]), (restricted m (r :: rs)).
      split_and!.
      * done.
      * by rewrite lookup_app_r, Nat.sub_diag by lia.
      * by apply lookup_app_l_Some.
      * done.
      * done.
      * intros _ _. split_and!; try done.
        -- lia.
        -- unfold entries at 1. simpl. apply kept_entries.
        -- unfold Columns. simpl. unfold entries. by apply kept_columns.
        -- simpl. by rewrite !length_fmap.
      * intros _. by eapply Hindep.
      * intros Heq. lia.
Qed.

Lemma C4_subset_witness :
  ∃ q h', Subset 0 ["c"; "a"] [Fixtures.abcd] = Ok (q, h')
          ∧ q ≠ 0 ∧ (Columns <$> h' !! q) = Some ["a"; "c"]
          ∧ h' !! 0 = Some Fixtures.abcd.
Proof.
  destruct (C4_subset [Fixtures.abcd] 0 Fixtures.abcd ["c"; "a"] eq_refl eq_refl)
    as (q & h' & nm & Hs & Hq & Hp & _).
  exists q, h'. injection Hs as <- <-. repeat split. discriminate.
Defined.

(** The test of the repository: parent columns [a,b,c,d]. *)
Example TestMapperSubset :
  subset_columns 0 ["a"; "c"] [Fixtures.abcd] = Ok (1, ["a"; "c"])
  ∧ subset_columns 0 ["c"; "a"] [Fixtures.abcd] = Ok (1, ["a"; "c"])
  ∧ subset_columns 0 ["b"] [Fixtures.abcd] = Ok (1, ["b"])
  ∧ subset_columns 0 [] [Fixtures.abcd] = Ok (1, [])
  ∧ subset_columns 0 ["*"] [Fixtures.abcd] = Ok (0, ["a"; "b"; "c"; "d"]).
Proof. repeat split. Qed.

(** ** The invariant of a Correspondence *)

Lemma MapperWithKey_Ok_struct (tgt : any) (key : string) (columns : list string)
    (m : mapper) :
  MapperWithKey tgt key columns = Ok m →
  ∃ v name fs, tgt = Some v ∧ typeof v = TStruct name fs.
Proof.
  unfold MapperWithKey. destruct (String.eqb key EmptyString); [done|].
  destruct tgt as [v|]; simpl; [|done].
  destruct (typeof v) as [| |name fs|e] eqn:Hty; simpl; try done.
  - intros _. by exists v, name, fs.
  - destruct (Kind_eqb (kind e) Struct); simpl; [|done].
    by destruct (length columns =? 0)%nat.
Qed.

Lemma build_invariant (tgt : any) (key : string) (columns : list string)
    (m : mapper) :
  MapperWithKey tgt key columns = Ok m → invariant m.
Proof.
  intros Hm. destruct (MapperWithKey_Ok_struct _ _ _ _ Hm) as (v & name & fs & -> & Hty).
  destruct (MapperWithKey_Ok _ _ _ _ _ _ Hty Hm) as (-> & Hnd & _).
  unfold invariant. simpl. split_and!.
  - by rewrite !length_fmap.
  - done.
  - exists name, fs. split; [done|].
    intros i ([i' c] & Hic & Hin)%list_elem_of_fmap. simpl in Hic. subst i'.
    apply scan_sound in Hin as (f & _ & Hl & [He _]%exportable_split & _).
    rewrite Nat.sub_0_r in Hl. by exists f.
Qed.

Lemma emptied_invariant (m : mapper) : invariant m → invariant (emptied m).
Proof.
  intros (_ & _ & name & fs & Ht & _). unfold invariant. simpl. split_and!.
  - done.
  - constructor.
  - exists name, fs. split; [done|]. by intros i ?%elem_of_nil.
Qed.

Lemma restricted_invariant (m : mapper) (rs : list string) :
  invariant m → invariant (restricted m rs).
Proof.
  intros (Hlen & Hnd & name & fs & Ht & Hpos). unfold invariant. simpl.
  assert (kept rs (entries m) `sublist_of` entries m) as Hsub
    by apply sublist_filter.
  split_and!.
  - by rewrite !length_fmap.
  - eapply sublist_NoDup; [|by apply fmap_sublist].
    unfold entries. by rewrite fst_zip by lia.
  - exists name, fs. split; [done|]. intros i Hi. apply Hpos.
    eapply elem_of_sublist in Hi; [|by apply fmap_sublist].
    unfold entries in Hi. by rewrite snd_zip in Hi by lia.
Qed.

Lemma provided_invariant (opt : MapperOption) (m : mapper) :
  provided opt → invariant m → invariant (opt m).
Proof. by intros [fm|comma|mark]. Qed.

Lemma SetOptions_invariant (p : ptr) (opts : list MapperOption) (h : store)
    (q : ptr) (h' : store) :
  Forall provided opts → Forall invariant h →
  SetOptions p opts h = Ok (q, h') → Forall invariant h'.
Proof.
  intros Hopts. revert h. induction Hopts as [|opt opts Hopt _ IH]; intros h Hinv; simpl.
  - by intros [= <- <-].
  - unfold deref. destruct (h !! p) as [m|] eqn:Hp; simpl; [|done].
    apply IH. apply Forall_insert; [done|].
    apply provided_invariant; [done|]. by eapply Forall_lookup_1.
Qed.

Lemma api_step_invariant (h h' : store) :
  api_step h h' → Forall invariant h → Forall invariant h'.
Proof.
  intros [tgt key columns m h0 Hm | p columns h0 q h0' Hs | p opts h0 q h0' Hopts Hs] Hinv.
  - simpl. apply Forall_app. split; [done|].
    constructor; [by eapply build_invariant | constructor].
  - destruct (h0 !! p) as [m|] eqn:Hp.
    2: { unfold Subset, deref in Hs. by rewrite Hp in Hs. }
    pose proof (Forall_lookup_1 _ _ _ _ Hinv Hp) as Hm.
    rewrite (Subset_spec h0 p m columns Hp) in Hs
      by (destruct Hm as [-> _]; lia).
    injection Hs as Hs.
    assert (h0' = h0 ++ [emptied m] ∨ h0' = h0 ++ [restricted m columns]) as [->| ->].
    { destruct (bool_decide (columns = [])); [left; congruence|].
      destruct (joker columns); [left | right]; congruence. }
    + apply Forall_app. split; [done|].
      constructor; [by apply emptied_invariant | constructor].
    + apply Forall_app. split; [done|].
      constructor; [by apply restricted_invariant | constructor].
  - by eapply SetOptions_invariant.
Qed.

(** C7. Every Correspondence produced by construction or by [Subset], at
    any point of a program that builds mappers, takes subsets and sets
    options: it has as many columns as fields, no column name occurs
    twice in it, and every field position is that of an exported field of
    the record type it was built for. *)
Theorem C7_invariant (h : store) (p : ptr) (m : mapper) :
  reachable h → h !! p = Some m →
  length (Columns m) = length (fields m)
  ∧ NoDup (Columns m)
  ∧ ∃ name fs, target m = TStruct name fs
      ∧ ∀ i, i ∈ fields m → ∃ f, fs !! i = Some f ∧ IsExported f = true.
Proof.
  intros Hr Hp. assert (Forall invariant h) as Hinv.
  { clear Hp. induction Hr as [|h0 h1 _ IH Hstep]; [constructor|].
    by eapply api_step_invariant. }
  exact (Forall_lookup_1 _ _ _ _ Hinv Hp).
Qed.

Lemma C7_invariant_witness :
  NoDup ["a"; "c"]
  ∧ ∃ name fs, Fixtures.M_abcd = TStruct name fs
      ∧ ∀ i, i ∈ [0; 2] → ∃ f, fs !! i = Some f ∧ IsExported f = true.
Proof.
  assert (reachable [Fixtures.abcd; restricted Fixtures.abcd ["c"; "a"]]) as Hr.
  { apply (reach_step [Fixtures.abcd]).
    - apply (reach_step []); [apply reach_empty|].
      exact (step_build (Some (Fixtures.zero_of Fixtures.M_abcd)) "mapper" ["*"]
               Fixtures.abcd [] eq_refl).
    - exact (step_subset 0 ["c"; "a"] [Fixtures.abcd] 1
               [Fixtures.abcd; restricted Fixtures.abcd ["c"; "a"]] eq_refl). }
  exact (proj2 (C7_invariant _ 1 (restricted Fixtures.abcd ["c"; "a"]) Hr eq_refl)).
Defined.

(** ** Strings: prefixes, cutting and joining *)

Lemma str_app_assoc (a b c : string) : ((a ++ b) ++ c = a ++ b ++ c)%string.
Proof. induction a as [|x a IH]; simpl; [done | by rewrite IH]. Qed.

Lemma str_app_nil_r (a : string) : (a ++ EmptyString = a)%string.
Proof. induction a as [|x a IH]; simpl; [done | by rewrite IH]. Qed.

Lemma str_length_app (a b : string) :
  String.length (a ++ b) = (String.length a + String.length b)%nat.
Proof. induction a as [|x a IH]; simpl; [done | by rewrite IH]. Qed.

Lemma HasPrefix_nil (s : string) : Strings.HasPrefix s EmptyString = true.
Proof. by destruct s. Qed.

Lemma HasPrefix_app (p s : string) : Strings.HasPrefix (p ++ s) p = true.
Proof.
  induction p as [|x p IH]; simpl; [apply HasPrefix_nil|].
  by rewrite Ascii.eqb_refl, IH.
Qed.

Lemma HasPrefix_mono (s t sub : string) :
  Strings.HasPrefix s sub = true → Strings.HasPrefix (s ++ t) sub = true.
Proof.
  revert s. induction sub as [|x sub IH]; intros s.
  - intros _. apply HasPrefix_nil.
  - destruct s as [|y s]; simpl; [done|].
    intros [Hxy Hs]%andb_true_iff. by rewrite Hxy, IH.
Qed.

Lemma HasPrefix_short (s t sub : string) :
  (String.length sub ≤ String.length s)%nat →
  Strings.HasPrefix (s ++ t) sub = true → Strings.HasPrefix s sub = true.
Proof.
  revert s. induction sub as [|x sub IH]; intros s.
  - intros _ _. apply HasPrefix_nil.
  - destruct s as [|y s]; simpl; [lia|].
    intros Hlen [Hxy Hs]%andb_true_iff. rewrite Hxy. simpl. apply IH; [lia | done].
Qed.

Lemma take_app (a b : string) : Strings.take (String.length a) (a ++ b) = a.
Proof. induction a as [|x a IH]; simpl; [by destruct b | by rewrite IH]. Qed.

Lemma drop_app (a b : string) : Strings.drop (String.length a) (a ++ b) = b.
Proof. induction a as [|x a IH]; simpl; [done | by rewrite IH]. Qed.

Lemma TrimPrefix_app (pre c : string) : Strings.TrimPrefix (pre ++ c) pre = c.
Proof. unfold Strings.TrimPrefix. by rewrite HasPrefix_app, drop_app. Qed.

Lemma Index_eq (s sub : string) :
  Strings.Index s sub =
  if Strings.HasPrefix s sub then Some 0
  else match s with
       | EmptyString => None
       | String _ s' => option_map S (Strings.Index s' sub)
       end.
Proof. by destruct s. Qed.

(** The separator found at the end of [x ++ sep] is the first one found in
    [x ++ sep ++ rest], whatever follows. *)
Lemma Index_cut (sep x rest : string) :
  cut_by sep x → Strings.Index (x ++ sep ++ rest) sep = Some (String.length x).
Proof.
  unfold cut_by. induction x as [|a x IH].
  - intros _. simpl. rewrite Index_eq. by rewrite HasPrefix_app.
  - rewrite (Index_eq (String a x ++ sep)), (Index_eq (String a x ++ sep ++ rest)).
    destruct (Strings.HasPrefix (String a x ++ sep) sep) eqn:Hp; [done|].
    destruct (Strings.HasPrefix (String a x ++ sep ++ rest) sep) eqn:Hp'.
    { exfalso. rewrite <- str_app_assoc in Hp'. apply HasPrefix_short in Hp'.
      - congruence.
      - rewrite str_length_app. lia. }
    simpl String.append. cbv iota.
    destruct (Strings.Index (x ++ sep) sep) as [k|] eqn:Hk; simpl; [|done].
    intros [= ->]. by rewrite IH.
Qed.

Lemma Index_last (sep x : string) :
  sep ≠ EmptyString → cut_by sep x → Strings.Index x sep = None.
Proof.
  intros Hsep. unfold cut_by. induction x as [|a x IH].
  - intros _. by destruct sep.
  - rewrite (Index_eq (String a x ++ sep)), (Index_eq (String a x)).
    destruct (Strings.HasPrefix (String a x ++ sep) sep) eqn:Hp; [done|].
    destruct (Strings.HasPrefix (String a x) sep) eqn:Hp'.
    { apply (HasPrefix_mono _ sep) in Hp'. congruence. }
    simpl String.append. cbv iota.
    destruct (Strings.Index (x ++ sep) sep) as [k|] eqn:Hk; simpl; [|done].
    intros [= ->]. by rewrite IH.
Qed.

Lemma genSplit_Join (sep : string) (l : list string) :
  sep ≠ EmptyString → Forall (cut_by sep) l → l ≠ [] →
  ∀ fuel, (length l - 1 ≤ fuel)%nat →
  Strings.genSplit fuel (Strings.Join l sep) sep = l.
Proof.
  intros Hsep Hcut. induction Hcut as [|x l Hx Hl IH]; [done|].
  intros _ fuel Hfuel. destruct l as [|y l].
  - simpl. destruct fuel; [done|]. simpl. by rewrite Index_last.
  - destruct fuel as [|fuel]; [simpl in Hfuel; lia|].
    change (Strings.Join (x :: y :: l) sep)
      with (x ++ sep ++ Strings.Join (y :: l) sep)%string.
    simpl Strings.genSplit. rewrite Index_cut by done.
    rewrite take_app. f_equal.
    rewrite <- str_length_app, <- str_app_assoc, drop_app.
    apply IH; [done|]. simpl in *. lia.
Qed.

Lemma Join_length (sep : string) (l : list string) :
  sep ≠ EmptyString → (length l - 1 ≤ String.length (Strings.Join l sep))%nat.
Proof.
  intros Hsep. induction l as [|x l IH]; [simpl; lia|].
  destruct l as [|y l]; [simpl; lia|].
  change (Strings.Join (x :: y :: l) sep)
    with (x ++ sep ++ Strings.Join (y :: l) sep)%string.
  rewrite !str_length_app. destruct sep; [done|]. simpl in *. lia.
Qed.

Lemma Split_Join (sep : string) (l : list string) :
  sep ≠ EmptyString → Forall (cut_by sep) l → l ≠ [] →
  Strings.Split (Strings.Join l sep) sep = l.
Proof.
  intros Hsep Hcut Hne. unfold Strings.Split.
  apply genSplit_Join; try done. by apply Join_length.
Qed.

Lemma EncodeRune_nonempty (r : Z) : Utf8.EncodeRune r ≠ EmptyString.
Proof.
  unfold Utf8.EncodeRune, Utf8.encode3.
  repeat match goal with |- context [if ?b then _ else _] => destruct b end; done.
Qed.

(** ** The strings the builders produce *)

Lemma sum_lengths_ge (g : string → Z) (l : list string) (n0 : Z) :
  (∀ c, 0 ≤ g c)%Z → (n0 ≤ fold_left (fun n c => n + g c) l n0)%Z.
Proof.
  intros Hg. revert n0. induction l as [|c l IH]; intros n0; simpl; [lia|].
  specialize (IH (n0 + g c)%Z). specialize (Hg c). lia.
Qed.

Lemma Grow_nonneg (b : Strings.Builder.t) (n : Z) :
  (0 ≤ n)%Z → Strings.Builder.Grow b n = Ok b.
Proof.
  intros Hn. unfold Strings.Builder.Grow.
  destruct (Z.ltb_spec n 0); [lia | done].
Qed.

Lemma write_loop (comma : Z) (f : string → string) (rest : list string) :
  ∀ (b c : string),
  fold_left
    (fun b s => Strings.Builder.WriteString (Strings.Builder.WriteRune b comma) (f s))
    rest (b ++ f c)%string
  = (b ++ Strings.Join (map f (c :: rest)) (Utf8.EncodeRune comma))%string.
Proof.
  induction rest as [|d rest IH]; intros b c; [done|].
  simpl fold_left.
  change (Strings.Builder.WriteString
            (Strings.Builder.WriteRune (b ++ f c)%string comma) (f d))
    with (((b ++ f c) ++ Utf8.EncodeRune comma) ++ f d)%string.
  rewrite (IH ((b ++ f c) ++ Utf8.EncodeRune comma)%string d).
  change (Strings.Join (map f (c :: d :: rest)) (Utf8.EncodeRune comma))
    with (f c ++ Utf8.EncodeRune comma
          ++ Strings.Join (map f (d :: rest)) (Utf8.EncodeRune comma))%string.
  by rewrite !str_app_assoc.
Qed.

Lemma ColumnsStringPrefix_spec (m : mapper) (pre : string) :
  cols m ≠ [] →
  ColumnsStringPrefix m pre
  = Ok (Strings.Join (map (String.append pre) (cols m)) (separator m)).
Proof.
  intros Hne. unfold ColumnsStringPrefix.
  destruct (cols m) as [|c0 rest]; [done|]. clear Hne.
  destruct rest as [|c1 rest]; [done|].
  simpl length. simpl Nat.eqb. cbv iota.
  rewrite Grow_nonneg.
  2: { etrans; [|apply (sum_lengths_ge (fun c => Strings.len c + Strings.len pre)%Z)].
       - lia.
       - intros c. unfold Strings.len. lia. }
  set (rhs := Strings.Join _ _). simpl.
  change (Strings.Builder.WriteString
            (Strings.Builder.WriteRune (pre ++ c0)%string (Comma m)) (pre ++ c1)%string)
    with (((pre ++ c0) ++ Utf8.EncodeRune (Comma m)) ++ String.append pre c1)%string.
  rewrite (write_loop (Comma m) (String.append pre) rest).
  subst rhs. unfold separator.
  change (Strings.Join (map (String.append pre) (c0 :: c1 :: rest))
            (Utf8.EncodeRune (Comma m)))
    with ((pre ++ c0) ++ Utf8.EncodeRune (Comma m)
          ++ Strings.Join (map (String.append pre) (c1 :: rest))
               (Utf8.EncodeRune (Comma m)))%string.
  unfold Strings.Builder.String. by rewrite str_app_assoc.
Qed.

Lemma ColumnsString_spec (m : mapper) :
  cols m ≠ [] → ColumnsString m = Ok (Strings.Join (cols m) (separator m)).
Proof.
  intros Hne. unfold ColumnsString.
  destruct (cols m) as [|c0 rest]; [done|]. clear Hne.
  destruct rest as [|c1 rest]; [done|].
  simpl length. simpl Nat.eqb. cbv iota.
  rewrite Grow_nonneg.
  2: { etrans; [|apply (sum_lengths_ge Strings.len)].
       - lia.
       - intros c. unfold Strings.len. lia. }
  set (rhs := Strings.Join _ _). simpl.
  change (Strings.Builder.WriteString
            (Strings.Builder.WriteRune c0 (Comma m)) c1)
    with ((c0 ++ Utf8.EncodeRune (Comma m)) ++ (fun s : string => s) c1)%string.
  rewrite (write_loop (Comma m) (fun s => s) rest).
  subst rhs. unfold separator. rewrite map_id.
  change (Strings.Join (c0 :: c1 :: rest) (Utf8.EncodeRune (Comma m)))
    with (c0 ++ Utf8.EncodeRune (Comma m)
          ++ Strings.Join (c1 :: rest) (Utf8.EncodeRune (Comma m)))%string.
  unfold Strings.Builder.String. by rewrite str_app_assoc.
Qed.

Lemma marks_loop_spec (m : mapper) (k : nat) :
  ∀ b : string,
  marks_loop m k (b ++ placeholder m)%string
  = (b ++ Strings.Join (repeat (placeholder m) (S k)) (separator m))%string.
Proof.
  induction k as [|k IH]; intros b; [done|].
  simpl marks_loop.
  change (Strings.Builder.WriteRune
            (Strings.Builder.WriteRune (b ++ placeholder m)%string (Comma m)) (Mark m))
    with (((b ++ placeholder m) ++ separator m) ++ placeholder m)%string.
  rewrite IH.
  change (Strings.Join (repeat (placeholder m) (S (S k))) (separator m))
    with (placeholder m ++ separator m
          ++ Strings.Join (repeat (placeholder m) (S k)) (separator m))%string.
  by rewrite !str_app_assoc.
Qed.

Lemma Marks_spec (m : mapper) :
  cols m ≠ [] →
  Marks m
  = Ok (Strings.Join (repeat (placeholder m) (length (cols m))) (separator m)).
Proof.
  intros Hne. unfold Marks.
  destruct (cols m) as [|c0 rest]; [done|]. clear Hne.
  destruct rest as [|c1 rest]; [done|].
  simpl length. simpl Nat.eqb. cbv iota.
  rewrite Grow_nonneg by lia.
  cbn [mbind result_bind]. rewrite Nat.sub_succ, Nat.sub_0_r.
  change (Strings.Builder.WriteRune Strings.Builder.zero (Mark m))
    with (EmptyString ++ placeholder m)%string.
  rewrite marks_loop_spec. done.
Qed.

Lemma views_of_empty (m : mapper) :
  cols m = [] →
  Marks m = Panic (RuntimeError "strings.Builder.Grow: negative count")
  ∧ ColumnsString m = Panic (RuntimeError "strings.Builder.Grow: negative count")
  ∧ ∀ pre, ColumnsStringPrefix m pre
           = Panic (RuntimeError "strings.Builder.Grow: negative count").
Proof.
  intros He. unfold Marks, ColumnsString, ColumnsStringPrefix. by rewrite He.
Qed.

(** ** Claims about the column and placeholder strings *)

Lemma cut_by_byte (a : ascii) (x : string) :
  contains_byte a x = false → cut_by (String a EmptyString) x.
Proof.
  unfold cut_by. induction x as [|b x IH]; simpl.
  - intros _. by rewrite Ascii.eqb_refl.
  - intros [Hab Hx]%orb_false_iff. rewrite Hab. simpl. by rewrite IH.
Qed.

Lemma separator_byte (m : mapper) :
  (0 ≤ Comma m ≤ 127)%Z →
  separator m = String (Utf8.byte_of_Z (Comma m)) EmptyString.
Proof.
  intros Hc. unfold separator, Utf8.EncodeRune.
  rewrite (Z.mod_small (Comma m) 4294967296) by lia.
  destruct (Z.leb_spec (Comma m) 127); [done | lia].
Qed.

(** C8, as the code has it.  For a Correspondence with at least one column:
    when every column name is cut from what follows by the separator (in
    the name followed by the separator, the separator is first found at
    the end), splitting [ColumnsString()] on the separator gives
    [Columns()]; when this holds of every column name with the prefix [p]
    in front, splitting [ColumnsStringPrefix(p)] and trimming [p] from
    each element gives [Columns()].  For a separator of one byte a string
    is cut in this way as soon as the byte does not occur in it. *)
Theorem C8_columns_string_round_trip (m : mapper) :
  Columns m ≠ [] →
  ((∀ c, c ∈ Columns m → cut_by (separator m) c) →
     ∃ s, ColumnsString m = Ok s ∧ Strings.Split s (separator m) = Columns m)
  ∧ (∀ pre, (∀ c, c ∈ Columns m → cut_by (separator m) (pre ++ c)%string) →
     ∃ s, ColumnsStringPrefix m pre = Ok s
          ∧ map (fun x => Strings.TrimPrefix x pre) (Strings.Split s (separator m))
            = Columns m)
  ∧ ((0 ≤ Comma m ≤ 127)%Z →
     ∀ x, contains_byte (Utf8.byte_of_Z (Comma m)) x = false →
          cut_by (separator m) x).
Proof.
  unfold Columns. intros Hne. split_and!.
  - intros Hcut. exists (Strings.Join (cols m) (separator m)).
    split; [by apply ColumnsString_spec|].
    apply Split_Join; [apply EncodeRune_nonempty | | done].
    by apply Forall_forall.
  - intros pre Hcut.
    exists (Strings.Join (map (String.append pre) (cols m)) (separator m)).
    split; [by apply ColumnsStringPrefix_spec|].
    rewrite Split_Join.
    + rewrite <- list_fmap_compose. rewrite <- (list_fmap_id (cols m)) at 2.
      apply list_fmap_ext. intros _ c _. simpl. apply TrimPrefix_app.
    + apply EncodeRune_nonempty.
    + apply Forall_fmap, Forall_forall. intros c Hc. simpl. by apply Hcut.
    + by destruct (cols m).
  - intros Hc x Hx. rewrite separator_byte by done. by apply cut_by_byte.
Qed.

Lemma C8_columns_string_round_trip_witness :
  (∃ s, ColumnsString Fixtures.abcd = Ok s
        ∧ Strings.Split s "," = ["a"; "b"; "c"; "d"])
  ∧ (∃ s, ColumnsStringPrefix Fixtures.abcd "t." = Ok s
          ∧ map (fun x => Strings.TrimPrefix x "t.") (Strings.Split s ",")
            = ["a"; "b"; "c"; "d"]).
Proof.
  destruct (C8_columns_string_round_trip Fixtures.abcd ltac:(discriminate))
    as (Hplain & Hpre & Hbyte).
  split.
  - apply Hplain. intros c Hc. apply Hbyte; [simpl; lia|].
    revert c Hc. apply Forall_forall. repeat constructor.
  - apply (Hpre "t."). intros c Hc. apply Hbyte; [simpl; lia|].
    revert c Hc. apply Forall_forall. repeat constructor.
Defined.

(** C8 fails as stated: the column of a field tagged [mapper:"a,b"]
    contains the separator, and the mapper [Subset()] returns has no
    column to write. *)
Lemma C8_counterexample :
  Mapper (Some (Fixtures.zero_of Fixtures.M_comma)) ["*"] = Ok Fixtures.comma
  ∧ ColumnsString Fixtures.comma = Ok "a,b"
  ∧ Strings.Split "a,b" (separator Fixtures.comma) = ["a"; "b"]
  ∧ Columns Fixtures.comma = ["a,b"]
  ∧ Strings.Split "a,b" (separator Fixtures.comma) ≠ Columns Fixtures.comma.
Proof. split_and!; try reflexivity. discriminate. Qed.

(** C9, where the code holds it: for a Correspondence with at least one
    column, [Marks()] is [len(Columns())] placeholders joined by the
    separator. *)
Lemma Marks_of_columns (m : mapper) :
  Columns m ≠ [] →
  Marks m
  = Ok (Strings.Join (repeat (placeholder m) (length (Columns m))) (separator m)).
Proof. apply Marks_spec. Qed.

(** C9 at the failing input: [Subset()] of the mapper of
    [struct { A, B, C, D string }] has no column; [Marks()] asks the
    builder to grow by -1 and panics, where zero placeholders joined by
    the separator are the empty string. *)
Theorem C9_marks_of_empty_mapper :
  subset_columns 0 [] [Fixtures.abcd] = Ok (1, [])
  ∧ ([Fixtures.abcd; Fixtures.none_of_abcd] !! 1 = Some Fixtures.none_of_abcd
     ∧ Subset 0 [] [Fixtures.abcd]
       = Ok (1, [Fixtures.abcd; Fixtures.none_of_abcd]))
  ∧ Marks Fixtures.none_of_abcd
    = Panic (RuntimeError "strings.Builder.Grow: negative count")
  ∧ Strings.Join
      (repeat (placeholder Fixtures.none_of_abcd)
         (length (Columns Fixtures.none_of_abcd)))
      (separator Fixtures.none_of_abcd) = EmptyString.
Proof. split_and!; reflexivity. Qed.

(** ** Addrs and Values *)

Lemma collect_map (get : nat → result any) (g : nat → any) (idxs : list nat) :
  ∀ res, (∀ i, i ∈ idxs → get i = Ok (g i)) →
  collect get idxs res = Ok (res ++ map g idxs).
Proof.
  induction idxs as [|i idxs IH]; intros res Hget; simpl.
  - by rewrite app_nil_r.
  - rewrite (Hget i) by left. simpl. rewrite IH.
    + by rewrite <- app_assoc.
    + intros j Hj. apply Hget. by right.
Qed.

Lemma collect_panic (get : nat → result any) (idxs : list nat) (res : list any) :
  idxs ≠ [] → (∀ i, ∃ p, get i = Panic p) → ∃ p, collect get idxs res = Panic p.
Proof.
  intros Hne Hget. destruct idxs as [|i idxs]; [done|]. simpl.
  destruct (Hget i) as [p ->]. by exists p.
Qed.

Lemma Value_Field_exported (name : string) (fs : list StructField)
    (vs : list value) (a : option place) (i : nat) (f : StructField) (x : value) :
  fs !! i = Some f → IsExported f = true → vs !! i = Some x →
  Value_Field {| val := Some (VStruct (TStruct name fs) vs); flagRO := false;
                 addr := a |} i
  = Ok {| val := Some x; flagRO := false;
          addr := option_map (fun pl : place => (pl.1, pl.2 ++ [i])) a |}.
Proof.
  intros Hf He Hx. unfold Value_Field. simpl. by rewrite Hf, Hx, He.
Qed.

Lemma Value_Field_no_struct (v : Value) (i : nat) :
  (∀ x, val v = Some x → kind (typeof x) ≠ Struct) →
  ∃ p, Value_Field v i = Panic p.
Proof.
  intros Hk. unfold Value_Field. destruct (val v) as [x|] eqn:Hv; [|by eexists].
  specialize (Hk x eq_refl).
  destruct x as [| |t vs|]; try by eexists.
  destruct t as [| |n fs|e];
    [by eexists | by eexists | by destruct Hk | by eexists].
Qed.

Lemma load_root (mem : memory) (l : nat) (v : value) :
  mem !! l = Some v → load mem (l, []) = Some v.
Proof. intros Hl. unfold load. simpl. by rewrite Hl. Qed.

Lemma field_write_through (mem : memory) (l : nat) (t : Type_)
    (vs : list value) (i : nat) (x y : value) :
  mem !! l = Some (VStruct t vs) → vs !! i = Some x →
  load mem (l, [i]) = Some x
  ∧ ∃ mem', store_through mem (l, [i]) y = Some mem'
            ∧ load mem' (l, []) = Some (VStruct t (<[i := y]> vs)).
Proof.
  intros Hl Hx. split.
  - unfold load. simpl. by rewrite Hl, Hx.
  - unfold store_through. simpl. rewrite Hl, Hx. eexists. split; [done|].
    apply load_root. apply list_lookup_insert_eq. by apply lookup_lt_Some in Hl.
Qed.

(** C6, as the code has it.  Neither function compares the instance with
    the target type of the Correspondence.  [Addrs] panics on nil, on
    what is no pointer, on a nil pointer and on a pointer to what is no
    struct; [Values] panics on nil, and, when the Correspondence has a
    field, on what is neither a struct nor a pointer to one.  On a struct
    whose fields at the resolved positions exist and are exported (as
    those of the target type are), [Values] returns the values of these
    fields, from the struct or from a pointer to it, and [Addrs] returns
    pointers to these fields of the pointed-to instance, in the order of
    the columns; storing through such a pointer changes that field of the
    instance. *)
Theorem C6_addrs_values (m : mapper) (mem : memory) (name : string)
    (fs : list StructField) (vs : list value) (l : nat) :
  (∀ i, i ∈ fields m → ∃ f, fs !! i = Some f ∧ IsExported f = true) →
  length vs = length fs →
  mem !! l = Some (VStruct (TStruct name fs) vs) →
  Values m mem (Some (VStruct (TStruct name fs) vs))
  = Ok (map (fun i => vs !! i) (fields m))
  ∧ Values m mem (Some (VPointer (TStruct name fs) (Some (l, []))))
    = Ok (map (fun i => vs !! i) (fields m))
  ∧ Addrs m mem (Some (VPointer (TStruct name fs) (Some (l, []))))
    = Ok (map (fun i => (fun x => VPointer (typeof x) (Some (l, [i]))) <$> vs !! i)
            (fields m))
  ∧ (∀ i, i ∈ fields m → ∃ x, vs !! i = Some x)
  ∧ (∀ i x y, vs !! i = Some x →
       load mem (l, [i]) = Some x
       ∧ ∃ mem', store_through mem (l, [i]) y = Some mem'
                 ∧ load mem' (l, [])
                   = Some (VStruct (TStruct name fs) (<[i := y]> vs)))
  ∧ (∃ p, Values m mem None = Panic p)
  ∧ (fields m ≠ [] → ∀ v, kind (typeof v) ≠ Struct → kind (typeof v) ≠ Pointer →
       ∃ p, Values m mem (Some v) = Panic p)
  ∧ (fields m ≠ [] → ∀ e pl v, load mem pl = Some v → kind (typeof v) ≠ Struct →
       ∃ p, Values m mem (Some (VPointer e (Some pl))) = Panic p)
  ∧ (∃ p, Addrs m mem None = Panic p)
  ∧ (∀ v, kind (typeof v) ≠ Pointer →
       Addrs m mem (Some v) = Panic (PanicString "destination not a pointer"))
  ∧ (∀ e, ∃ p, Addrs m mem (Some (VPointer e None)) = Panic p)
  ∧ (∀ e pl v, load mem pl = Some v → kind (typeof v) ≠ Struct →
       Addrs m mem (Some (VPointer e (Some pl)))
       = Panic (PanicString "destination not a struct pointer")).
Proof.
  intros Hpos Hlen Hl.
  assert (Hval : ∀ i, i ∈ fields m →
            ∃ f x, fs !! i = Some f ∧ IsExported f = true ∧ vs !! i = Some x).
  { intros i Hi. destruct (Hpos i Hi) as (f & Hf & He).
    destruct (lookup_lt_is_Some_2 vs i) as [x Hx].
    { rewrite Hlen. by apply lookup_lt_Some in Hf. }
    by exists f, x. }
  split_and!.
  - unfold Values. simpl. apply (collect_map _ (fun i => vs !! i) _ []).
    intros i Hi. destruct (Hval i Hi) as (f & x & Hf & He & Hx).
    unfold ValueOf. rewrite (Value_Field_exported _ _ _ _ _ _ _ Hf He Hx).
    by rewrite Hx.
  - unfold Values. simpl. unfold Value_Elem. simpl. rewrite (load_root _ _ _ Hl).
    simpl. apply (collect_map _ (fun i => vs !! i) _ []).
    intros i Hi. destruct (Hval i Hi) as (f & x & Hf & He & Hx).
    rewrite (Value_Field_exported _ _ _ _ _ _ _ Hf He Hx). by rewrite Hx.
  - unfold Addrs. simpl. unfold Value_Elem. simpl. rewrite (load_root _ _ _ Hl).
    simpl.
    apply (collect_map _
             (fun i => (fun x => VPointer (typeof x) (Some (l, [i]))) <$> vs !! i) _ []).
    intros i Hi. destruct (Hval i Hi) as (f & x & Hf & He & Hx).
    rewrite (Value_Field_exported _ _ _ _ _ _ _ Hf He Hx). by rewrite Hx.
  - intros i Hi. destruct (Hval i Hi) as (f & x & _ & _ & Hx). by exists x.
  - intros i x y Hx. by eapply field_write_through.
  - by eexists.
  - intros Hne v Hs Hp. unfold Values. simpl.
    destruct (Kind_eqb (kind (typeof v)) Pointer) eqn:Hk.
    { by destruct (typeof v). }
    simpl. apply collect_panic; [done|]. intros i.
    destruct (Value_Field_no_struct (ValueOf (Some v)) i) as [p Hpanic].
    { by intros x [= <-]. }
    exists p. by rewrite Hpanic.
  - intros Hne e pl v Hload Hs. unfold Values. simpl. unfold Value_Elem. simpl.
    rewrite Hload. simpl. apply collect_panic; [done|]. intros i.
    destruct (Value_Field_no_struct
                {| val := Some v; flagRO := false; addr := Some pl |} i)
      as [p Hpanic].
    { by intros x [= <-]. }
    exists p. by rewrite Hpanic.
  - by eexists.
  - intros v Hp. unfold Addrs. simpl.
    destruct (Kind_eqb (kind (typeof v)) Pointer) eqn:Hk; [|done].
    by destruct (typeof v).
  - intros e. by eexists.
  - intros e pl v Hload Hs. unfold Addrs. simpl. unfold Value_Elem. simpl.
    rewrite Hload. simpl.
    destruct (Kind_eqb (kind (typeof v)) Struct) eqn:Hk; [|done].
    by destruct (typeof v).
Qed.

Lemma C6_addrs_values_witness :
  Values Fixtures.keys [Fixtures.a_keys] (Some Fixtures.a_keys)
  = Ok [Some (VString "x")]
  ∧ Addrs Fixtures.keys [Fixtures.a_keys] (Some (VPointer Fixtures.M_keys (Some (0, []))))
    = Ok [Some (VPointer TString (Some (0, [0])))].
Proof.
  assert (Hpos : ∀ i, i ∈ fields Fixtures.keys →
            ∃ f, [Fixtures.exported "A" []; Fixtures.unexported "b"] !! i = Some f
                 ∧ IsExported f = true).
  { intros i Hi. apply list_elem_of_singleton in Hi. subst i.
    eexists. split; reflexivity. }
  destruct (C6_addrs_values Fixtures.keys [Fixtures.a_keys] "M"
              [Fixtures.exported "A" []; Fixtures.unexported "b"]
              [VString "x"; VInt 3] 0 Hpos eq_refl eq_refl)
    as (Hv & _ & Ha & _).
  split; [exact Hv | exact Ha].
Defined.

(** C6 fails as stated: a record of another type, and a pointer to one,
    are accepted by the mapper built for [struct { A string; b int32 }];
    and [Values] of a mapper without column accepts an integer. *)
Lemma C6_counterexample :
  Mapper (Some (Fixtures.zero_of Fixtures.M_keys)) ["*"] = Ok Fixtures.keys
  ∧ typeof Fixtures.an_other ≠ target Fixtures.keys
  ∧ Values Fixtures.keys [] (Some Fixtures.an_other) = Ok [Some (VInt 5)]
  ∧ Addrs Fixtures.keys [Fixtures.an_other]
      (Some (VPointer Fixtures.N_other (Some (0, []))))
    = Ok [Some (VPointer TInt (Some (0, [0])))]
  ∧ Values Fixtures.none_of_abcd [] (Some (VInt 3)) = Ok [].
Proof. split_and!; try reflexivity. discriminate. Qed.

(** The test of the repository: write through the first address. *)
Example TestValues :
  Addrs Fixtures.keys [Fixtures.zero_of Fixtures.M_keys]
    (Some (VPointer Fixtures.M_keys (Some (0, []))))
  = Ok [Some (VPointer TString (Some (0, [0])))]
  ∧ store_through [Fixtures.zero_of Fixtures.M_keys] (0, [0]) (VString "yolo")
    = Some [VStruct Fixtures.M_keys [VString "yolo"; VInt 0]].
Proof. split; reflexivity. Qed.

(** * Further properties of the code *)

(** ** The fieldSlice helpers and the slice trick *)

(** X1. [index] answers -1 exactly for a name that is not in the slice;
    for a name in it, it answers the position of its first occurrence. *)
Theorem index_first_occurrence (fs : list string) (name : string) :
  (index fs name = (-1)%Z ↔ name ∉ fs)
  ∧ (name ∈ fs →
     ∃ k, index fs name = Z.of_nat k ∧ fs !! k = Some name
          ∧ ∀ j, (j < k)%nat → fs !! j ≠ Some name).
Proof.
  rewrite index_position. split.
  - destruct (position fs name) as [k|] eqn:Hp.
    + split; [lia|]. intros Hn. apply position_None in Hn. congruence.
    + split; [|done]. intros _. by apply position_None.
  - intros Hin. destruct (position fs name) as [k|] eqn:Hp.
    + exists k. split; [done|]. by apply position_Some.
    + by apply position_None in Hp.
Qed.

(** X2. [joker] holds exactly of the slices that contain ["*"], wherever
    it stands among the other names. *)
Theorem joker_anywhere (fs : list string) :
  (joker fs = true ↔ "*" ∈ fs)
  ∧ ∀ before after, joker (before ++ "*" :: after) = true.
Proof.
  split; [apply joker_elem|].
  intros before after. apply joker_elem, elem_of_app. right. left.
Qed.

(** X3. The slice trick of the loop, on a position inside the slice:
    it never panics, the slice loses exactly the entry at that position
    (the others are kept, in some order), and it is one entry shorter. *)
Theorem delete_unordered_removes_one (columns : list string) (i : nat) (c : string) :
  columns !! i = Some c →
  ∃ rest, delete_unordered columns i = Ok rest
          ∧ c :: rest ≡ₚ columns
          ∧ S (length rest) = length columns.
Proof.
  intros Hi. exists (swap_delete columns i).
  pose proof (swap_delete_perm _ _ _ Hi) as Hp. split_and!.
  - apply delete_unordered_swap. by apply lookup_lt_Some in Hi.
  - done.
  - apply Permutation_length in Hp. simpl in Hp. done.
Qed.

Lemma delete_unordered_removes_one_witness :
  ∃ rest, delete_unordered ["a"; "z"; "c"; "y"] 0 = Ok rest
          ∧ "a" :: rest ≡ₚ ["a"; "z"; "c"; "y"]
          ∧ S (length rest) = 4.
Proof. exact (delete_unordered_removes_one ["a"; "z"; "c"; "y"] 0 "a" eq_refl). Defined.

(** ** Construction: what fails first, and what a request means *)

(** X4. The tests of [MapperWithKey] come in this order: an empty key
    panics whatever the target and the request; then the nil target; then
    a target that is no struct and no pointer to a struct, even with an
    empty request; then, on a struct, the empty request. *)
Theorem construction_checks_in_order (tgt : any) (key : string)
    (columns : list string) :
  (key = EmptyString →
     MapperWithKey tgt key columns
     = Panic (PanicString "Mapper MUST have a non empty struct tag key."))
  ∧ (key ≠ EmptyString → tgt = None → ∃ msg,
       MapperWithKey tgt key columns = Panic (RuntimeError msg))
  ∧ (key ≠ EmptyString → ∀ v, tgt = Some v →
       kind (typeof v) ≠ Struct →
       (∀ e, typeof v = TPointer e → kind e ≠ Struct) →
       MapperWithKey tgt key columns
       = Panic (PanicString "Mapper first argument MUST be a struct or a struct pointer"))
  ∧ (key ≠ EmptyString → ∀ v name fs, tgt = Some v →
       typeof v = TStruct name fs → columns = [] →
       MapperWithKey tgt key columns
       = Panic (PanicString "Mapper MUST select at least one field")).
Proof.
  split_and!.
  - by intros ->.
  - intros Hkey ->. unfold MapperWithKey.
    destruct (String.eqb_spec key EmptyString); [done|]. by eexists.
  - intros Hkey v -> Hk Hp. unfold MapperWithKey.
    destruct (String.eqb_spec key EmptyString); [done|]. simpl.
    destruct (typeof v) as [| |name fs|e] eqn:Hty; simpl in *; try done.
    specialize (Hp e eq_refl). by destruct (kind e).
  - intros Hkey v name fs -> Hty ->. unfold MapperWithKey.
    destruct (String.eqb_spec key EmptyString); [done|]. simpl.
    by rewrite Hty.
Qed.

(** X5. A request that contains ["*"] is the request ["*"]: the other
    names in it, known or not, change nothing, on any target and key. *)
Theorem wildcard_overrides_names (tgt : any) (key : string) (columns : list string) :
  joker columns = true →
  MapperWithKey tgt key columns = MapperWithKey tgt key ["*"].
Proof.
  intros Hj. destruct columns as [|c0 columns]; [done|].
  destruct (String.eqb_spec key EmptyString) as [->|Hkey]; [done|].
  destruct tgt as [v|].
  2: { unfold MapperWithKey. by destruct (String.eqb key EmptyString). }
  destruct (typeof v) as [| |name fs|e] eqn:Hty.
  - unfold MapperWithKey. destruct (String.eqb key EmptyString); [done|].
    simpl. by rewrite Hty.
  - unfold MapperWithKey. destruct (String.eqb key EmptyString); [done|].
    simpl. by rewrite Hty.
  - rewrite !(MapperWithKey_struct v name fs) by done.
    rewrite !passing_wild by done. rewrite Hj. done.
  - unfold MapperWithKey. destruct (String.eqb key EmptyString); [done|].
    simpl. rewrite Hty. simpl. by destruct (Kind_eqb (kind e) Struct).
Qed.

Lemma wildcard_overrides_names_witness :
  Mapper (Some (Fixtures.zero_of Fixtures.M_abcd)) ["zz"; "*"; "a"]
  = Mapper (Some (Fixtures.zero_of Fixtures.M_abcd)) ["*"].
Proof.
  exact (wildcard_overrides_names (Some (Fixtures.zero_of Fixtures.M_abcd))
           "mapper" ["zz"; "*"; "a"] eq_refl).
Defined.

Lemma explicit_outcome (v : value) (name : string) (fs : list StructField)
    (key : string) (columns : list string) :
  typeof v = TStruct name fs → key ≠ EmptyString → columns ≠ [] →
  joker columns = false → NoDup columns →
  MapperWithKey (Some v) key columns =
  if bool_decide (unmatched key columns fs = [])
  then Ok (extend (new_mapper (TStruct name fs)) (passing key columns fs))
  else Panic (missing_violation (unmatched key columns fs)).
Proof.
  intros Hty Hkey Hcols Hj Hnd.
  rewrite (MapperWithKey_struct v name fs) by done.
  assert (first_dup [] (map snd (passing key columns fs)) = None) as ->.
  { apply first_dup_None. split; [|by intros ? _ ?%elem_of_nil].
    pose proof (scan_perm key fs columns 0) as Hperm.
    unfold passing. rewrite Hj. rewrite <- Hperm in Hnd.
    by apply NoDup_app in Hnd as [? _]. }
  rewrite Hj. simpl. by destruct (unmatched key columns fs).
Qed.

(** X6. An explicit request of pairwise-distinct names on a struct
    succeeds exactly when every requested name is the resolved name of
    some exported field that is not tagged [,ignore]. *)
Theorem explicit_request_succeeds_iff (v : value) (name : string)
    (fs : list StructField) (key : string) (columns : list string) :
  typeof v = TStruct name fs → key ≠ EmptyString → columns ≠ [] →
  joker columns = false → NoDup columns →
  (∃ m, MapperWithKey (Some v) key columns = Ok m) ↔
  (∀ c, c ∈ columns →
     ∃ f, f ∈ fs ∧ IsExported f = true ∧ ignored key f = false
          ∧ resolved_name key f = c).
Proof.
  intros Hty Hkey Hcols Hj Hnd.
  rewrite (explicit_outcome v name fs) by done.
  destruct (scan_distinct key fs columns 0 Hnd) as [Hrest _].
  fold (scan key false columns 0 fs) in Hrest.
  assert (Hrest' : ∀ c, c ∈ unmatched key columns fs ↔
            c ∈ columns
            ∧ ∀ f, f ∈ fs → exportable key f = true → resolved_name key f ≠ c).
  { intros c. unfold unmatched. rewrite Hj. apply Hrest. }
  clear Hrest. split.
  - intros [m Hm] c Hc.
    destruct (decide (unmatched key columns fs = [])) as [He|Hne].
    2: { by rewrite bool_decide_eq_false_2 in Hm by done. }
    destruct (decide (Exists (fun f => exportable key f = true
                                       ∧ resolved_name key f = c) fs)) as [Hex|Hno].
    + apply Exists_exists in Hex as (f & Hf & [He' Hi']%exportable_split & Hr).
      by exists f.
    + exfalso. assert (c ∈ unmatched key columns fs) as Hin.
      { apply Hrest'. split; [done|]. intros f Hf Hex Hr. apply Hno.
        apply Exists_exists. by exists f. }
      rewrite He in Hin. by apply elem_of_nil in Hin.
  - intros Hall. rewrite bool_decide_eq_true_2; [by eexists|].
    destruct (unmatched key columns fs) as [|u us] eqn:Hu; [done|]. exfalso.
    destruct (proj1 (Hrest' u)) as [Hc Hno]; [left|].
    destruct (Hall u Hc) as (f & Hf & He & Hi & Hr).
    apply (Hno f Hf); [by apply exportable_split | done].
Qed.

Lemma explicit_request_succeeds_iff_witness :
  ∃ m, Mapper (Some (Fixtures.zero_of Fixtures.M_abcd)) ["d"; "a"] = Ok m.
Proof.
  assert (Hnd : NoDup ["d"; "a"]) by (apply (bool_decide_unpack _); exact I).
  apply (explicit_request_succeeds_iff (Fixtures.zero_of Fixtures.M_abcd) "M"
           [Fixtures.exported "A" []; Fixtures.exported "B" [];
            Fixtures.exported "C" []; Fixtures.exported "D" []]
           "mapper" ["d"; "a"] eq_refl ltac:(discriminate) ltac:(discriminate)
           eq_refl Hnd).
  apply Forall_forall. repeat constructor.
  - exists (Fixtures.exported "D" []). split; [|repeat split].
    repeat first [apply list_elem_of_here | apply list_elem_of_further].
  - exists (Fixtures.exported "A" []). split; [|repeat split].
    apply list_elem_of_here.
Defined.

Lemma scan_sorted (key : string) (jok : bool) (fs : list StructField) :
  ∀ (columns : list string) (i : nat),
  StronglySorted (fun a b : nat * string => (a.1 < b.1)%nat)
    (scan key jok columns i fs).1.
Proof.
  induction fs as [|f0 fs IH]; intros columns i; simpl; [constructor|].
  assert (Hhere : ∀ columns',
    StronglySorted (fun a b : nat * string => (a.1 < b.1)%nat)
      ((i, resolved_name key f0) :: (scan key jok columns' (S i) fs).1)).
  { intros columns'. constructor; [apply IH|].
    apply Forall_forall. intros [p c] Hin. simpl.
    apply scan_sound in Hin as (f & Hle & _). lia. }
  destruct (exportable key f0); [|apply IH].
  destruct jok.
  - specialize (Hhere columns).
    destruct (scan key true columns (S i) fs). exact Hhere.
  - destruct (position columns (resolved_name key f0)) as [k|]; [|apply IH].
    specialize (Hhere (swap_delete columns k)).
    destruct (scan key false (swap_delete columns k) (S i) fs). exact Hhere.
Qed.

Lemma sorted_lookup {A : Type} (R : relation A) (l : list A) :
  StronglySorted R l →
  ∀ k k' a b, (k < k')%nat → l !! k = Some a → l !! k' = Some b → R a b.
Proof.
  induction 1 as [|x l Hl IH Hx]; intros k k' a b Hlt Ha Hb; [done|].
  destruct k' as [|k']; [lia|]. simpl in Hb. destruct k as [|k]; simpl in Ha.
  - injection Ha as <-. rewrite Forall_forall in Hx. apply Hx.
    by apply list_elem_of_lookup_2 in Hb.
  - apply (IH k k'); [lia | done..].
Qed.

Lemma built_config (tgt : any) (key : string) (columns : list string) (m : mapper) :
  MapperWithKey tgt key columns = Ok m →
  Comma m = 44%Z ∧ Mark m = 63%Z ∧ FieldMapper m = Some Strings.ToLower
  ∧ TypeOf tgt = Some (target m).
Proof.
  intros Hm. destruct (MapperWithKey_Ok_struct _ _ _ _ Hm) as (v & name & fs & -> & Hty).
  destruct (MapperWithKey_Ok _ _ _ _ _ _ Hty Hm) as (-> & _ & _).
  simpl. by rewrite Hty.
Qed.

(** X7. The columns of a built mapper follow the declaration order of the
    fields, whatever the order of the request: the mapped field positions
    are strictly increasing. *)
Theorem columns_in_declaration_order (tgt : any) (key : string)
    (columns : list string) (m : mapper) :
  MapperWithKey tgt key columns = Ok m →
  ∀ k k' i i', (k < k')%nat →
    fields m !! k = Some i → fields m !! k' = Some i' → (i < i')%nat.
Proof.
  intros Hm k k' i i' Hlt Hi Hi'.
  destruct (MapperWithKey_Ok_struct _ _ _ _ Hm) as (v & name & fs & -> & Hty).
  destruct (MapperWithKey_Ok _ _ _ _ _ _ Hty Hm) as (-> & _ & _).
  simpl in Hi, Hi'. rewrite list_lookup_fmap in Hi, Hi'.
  destruct (passing key columns fs !! k) as [[p c]|] eqn:Hk; [|done].
  destruct (passing key columns fs !! k') as [[p' c']|] eqn:Hk'; [|done].
  simpl in Hi, Hi'. injection Hi as <-. injection Hi' as <-.
  exact (sorted_lookup _ _ (scan_sorted key (joker columns) fs columns 0)
           k k' (p, c) (p', c') Hlt Hk Hk').
Qed.

Lemma columns_in_declaration_order_witness : (0 < 3)%nat.
Proof.
  exact (columns_in_declaration_order (Some (Fixtures.zero_of Fixtures.M_abcd))
           "mapper" ["d"; "a"]
           {| fields := [0; 3]; cols := ["a"; "d"]; target := Fixtures.M_abcd;
              Comma := 44; Mark := 63; FieldMapper := Some Strings.ToLower |}
           eq_refl 0 1 0 3 ltac:(lia) eq_refl eq_refl).
Defined.

(** X8. An explicit request that succeeds is answered in full and only
    once: the columns of the mapper are the requested names up to order,
    so there is at least one, and no name was requested twice. *)
Theorem explicit_request_answered (v : value) (name : string)
    (fs : list StructField) (key : string) (columns : list string) (m : mapper) :
  typeof v = TStruct name fs → joker columns = false →
  MapperWithKey (Some v) key columns = Ok m →
  Columns m ≡ₚ columns ∧ NoDup columns ∧ Columns m ≠ [].
Proof.
  intros Hty Hj Hm.
  assert (columns ≠ []) as Hcols.
  { intros ->. unfold MapperWithKey in Hm.
    destruct (String.eqb key EmptyString); [done|].
    simpl in Hm. by rewrite Hty in Hm. }
  destruct (MapperWithKey_Ok _ _ _ _ _ _ Hty Hm) as (-> & Hnd & Hrest).
  specialize (Hrest Hj). pose proof (scan_perm key fs columns 0) as Hperm.
  unfold passing, unmatched in *. rewrite Hj in *. rewrite Hrest, app_nil_r in Hperm.
  unfold Columns. simpl. split_and!.
  - done.
  - by rewrite <- Hperm.
  - intros He. rewrite He in Hperm. by apply Permutation_nil in Hperm.
Qed.

Lemma explicit_request_answered_witness :
  ["a"; "d"] ≡ₚ ["d"; "a"] ∧ NoDup ["d"; "a"].
Proof.
  destruct (explicit_request_answered (Fixtures.zero_of Fixtures.M_abcd) "M"
              [Fixtures.exported "A" []; Fixtures.exported "B" [];
               Fixtures.exported "C" []; Fixtures.exported "D" []]
              "mapper" ["d"; "a"]
              {| fields := [0; 3]; cols := ["a"; "d"]; target := Fixtures.M_abcd;
                 Comma := 44; Mark := 63; FieldMapper := Some Strings.ToLower |}
              eq_refl eq_refl eq_refl) as (Hp & Hnd & _).
  split; [exact Hp | exact Hnd].
Defined.

Lemma passing_permutation (key : string) (columns columns' : list string)
    (fs : list StructField) :
  joker columns = false → NoDup columns → columns ≡ₚ columns' →
  joker columns' = false
  ∧ passing key columns' fs = passing key columns fs
  ∧ unmatched key columns' fs ≡ₚ unmatched key columns fs.
Proof.
  intros Hj Hnd Hperm.
  assert (joker columns' = false) as Hj'.
  { destruct (joker columns') eqn:Hjk; [|done].
    apply joker_elem in Hjk. rewrite <- Hperm in Hjk. apply joker_elem in Hjk.
    congruence. }
  assert (NoDup columns') as Hnd' by (by rewrite <- Hperm).
  assert (passing key columns' fs = passing key columns fs) as Hsame.
  { apply (StronglySorted_unique_strong (fun a b : nat * string => (a.1 < b.1)%nat)).
    - intros x1 x2 _ _ H1 H2. lia.
    - apply scan_sorted.
    - apply scan_sorted.
    - apply NoDup_Permutation.
      + eapply NoDup_fmap_1. apply scan_positions_NoDup.
      + eapply NoDup_fmap_1. apply scan_positions_NoDup.
      + intros [p c]. rewrite !passing_distinct by done. by rewrite Hperm. }
  split_and!; try done.
  pose proof (scan_perm key fs columns 0) as H1.
  pose proof (scan_perm key fs columns' 0) as H2.
  unfold passing, unmatched in *. rewrite Hj, Hj' in *.
  rewrite Hsame in H2.
  apply (Permutation_app_inv_l (map snd (scan key false columns 0 fs).1)).
  etrans; [exact H2|]. etrans; [symmetry; exact Hperm|]. by symmetry.
Qed.

(** X9. The order of an explicit request of pairwise-distinct names does
    not matter: two requests with the same names in another order build
    the same mapper, or both fail for the same missing names (listed in
    an order that depends on the request). *)
Theorem request_order_is_irrelevant (v : value) (name : string)
    (fs : list StructField) (key : string) (columns columns' : list string) :
  typeof v = TStruct name fs → key ≠ EmptyString → columns ≠ [] →
  joker columns = false → NoDup columns → columns ≡ₚ columns' →
  (∀ m, MapperWithKey (Some v) key columns = Ok m
        ↔ MapperWithKey (Some v) key columns' = Ok m)
  ∧ (∀ p, MapperWithKey (Some v) key columns = Panic p →
       ∃ names names', names ≡ₚ names' ∧ p = missing_violation names
         ∧ MapperWithKey (Some v) key columns' = Panic (missing_violation names')).
Proof.
  intros Hty Hkey Hcols Hj Hnd Hperm.
  destruct (passing_permutation key columns columns' fs Hj Hnd Hperm)
    as (Hj' & Hpass & Hrest).
  assert (columns' ≠ []) as Hcols'.
  { intros ->. by apply Permutation_nil_r in Hperm. }
  assert (NoDup columns') as Hnd' by (by rewrite <- Hperm).
  rewrite (explicit_outcome v name fs key columns) by done.
  rewrite (explicit_outcome v name fs key columns') by done.
  rewrite Hpass.
  destruct (decide (unmatched key columns fs = [])) as [He|Hne].
  - rewrite He in Hrest. apply Permutation_nil_r in Hrest.
    rewrite !bool_decide_eq_true_2 by done. split; [done|]. by intros p.
  - assert (unmatched key columns' fs ≠ []) as Hne'.
    { intros He'. rewrite He' in Hrest. by apply Permutation_nil in Hrest. }
    rewrite !bool_decide_eq_false_2 by done. split; [done|].
    intros p [= <-]. by exists (unmatched key columns fs), (unmatched key columns' fs).
Qed.

Lemma request_order_is_irrelevant_witness :
  Mapper (Some (Fixtures.zero_of Fixtures.M_abcd)) ["a"; "d"]
  = Ok {| fields := [0; 3]; cols := ["a"; "d"]; target := Fixtures.M_abcd;
          Comma := 44; Mark := 63; FieldMapper := Some Strings.ToLower |}.
Proof.
  assert (Hnd : NoDup ["d"; "a"]) by (apply (bool_decide_unpack _); exact I).
  exact (proj1 (proj1 (request_order_is_irrelevant
           (Fixtures.zero_of Fixtures.M_abcd) "M"
           [Fixtures.exported "A" []; Fixtures.exported "B" [];
            Fixtures.exported "C" []; Fixtures.exported "D" []]
           "mapper" ["d"; "a"] ["a"; "d"] eq_refl ltac:(discriminate)
           ltac:(discriminate) eq_refl Hnd (Permutation_swap "a" "d" [])) _)
         eq_refl).
Defined.

(** ** The string views *)

(** X10. On a Correspondence with at least one column the three builders
    write joins: [ColumnsString] is the columns joined by the separator,
    [ColumnsStringPrefix] the prefixed columns joined by it, and [Marks]
    as many placeholders as columns joined by it; none has a leading or
    trailing separator. *)
Theorem string_views_are_joins (m : mapper) :
  Columns m ≠ [] →
  ColumnsString m = Ok (Strings.Join (Columns m) (separator m))
  ∧ (∀ pre, ColumnsStringPrefix m pre
            = Ok (Strings.Join (map (String.append pre) (Columns m)) (separator m)))
  ∧ Marks m
    = Ok (Strings.Join (repeat (placeholder m) (length (Columns m))) (separator m)).
Proof.
  intros Hne. split_and!.
  - by apply ColumnsString_spec.
  - intros pre. by apply ColumnsStringPrefix_spec.
  - by apply Marks_spec.
Qed.

Lemma string_views_are_joins_witness :
  ColumnsString Fixtures.abcd = Ok "a,b,c,d"
  ∧ ColumnsStringPrefix Fixtures.abcd "t." = Ok "t.a,t.b,t.c,t.d"
  ∧ Marks Fixtures.abcd = Ok "?,?,?,?".
Proof.
  destruct (string_views_are_joins Fixtures.abcd ltac:(discriminate))
    as (Hc & Hp & Hm).
  split_and!; [exact Hc | exact (Hp "t.") | exact Hm].
Defined.

(** X11. On a Correspondence without columns, as [Subset()] or a wildcard
    build of a struct without exported field give, [ColumnsString],
    [ColumnsStringPrefix] and [Marks] all panic in [Builder.Grow], which
    is asked for a negative count. *)
Theorem string_views_without_columns (m : mapper) :
  Columns m = [] →
  ColumnsString m = Panic (RuntimeError "strings.Builder.Grow: negative count")
  ∧ (∀ pre, ColumnsStringPrefix m pre
            = Panic (RuntimeError "strings.Builder.Grow: negative count"))
  ∧ Marks m = Panic (RuntimeError "strings.Builder.Grow: negative count").
Proof.
  intros He. destruct (views_of_empty m He) as (Hm & Hc & Hp). done.
Qed.

Lemma string_views_without_columns_witness :
  ColumnsString Fixtures.none_of_abcd
  = Panic (RuntimeError "strings.Builder.Grow: negative count").
Proof. exact (proj1 (string_views_without_columns Fixtures.none_of_abcd eq_refl)). Defined.

(** X12. [ColumnsStringPrefix] with the empty prefix is [ColumnsString],
    on every Correspondence, with or without columns. *)
Theorem empty_prefix_is_plain (m : mapper) :
  ColumnsStringPrefix m EmptyString = ColumnsString m.
Proof.
  destruct (cols m) as [|c0 rest] eqn:Hc.
  - destruct (views_of_empty m Hc) as (_ & -> & ->). done.
  - assert (cols m ≠ []) as Hne by (by rewrite Hc).
    rewrite ColumnsStringPrefix_spec, ColumnsString_spec by done.
    f_equal. f_equal. rewrite <- (list_fmap_id (cols m)) at 2.
    apply list_fmap_ext. by intros _ c _.
Qed.

Lemma explicit_build_columns (v : value) (name : string)
    (fs : list StructField) (key : string) (columns : list string) (m : mapper) :
  typeof v = TStruct name fs → joker columns = false →
  MapperWithKey (Some v) key columns = Ok m →
  cols m ≡ₚ columns ∧ columns ≠ [].
Proof.
  intros Hty Hj Hm.
  assert (columns ≠ []) as Hcols.
  { intros ->. unfold MapperWithKey in Hm.
    destruct (String.eqb key EmptyString); [done|].
    simpl in Hm. by rewrite Hty in Hm. }
  destruct (MapperWithKey_Ok _ _ _ _ _ _ Hty Hm) as (-> & Hnd & Hrest).
  specialize (Hrest Hj). pose proof (scan_perm key fs columns 0) as Hperm.
  unfold passing, unmatched in *. rewrite Hj in *. rewrite Hrest, app_nil_r in Hperm.
  done.
Qed.

(** X13. A mapper fresh from construction writes with [,] and [?]: when
    it has a column, and it always has one after an explicit request,
    [ColumnsString] is the columns joined by commas and [Marks] as many
    question marks joined by commas, as in [Mapper(T, "a", "b").Marks() =
    "?,?"]. *)
Theorem fresh_mapper_views (tgt : any) (key : string) (columns : list string)
    (m : mapper) :
  MapperWithKey tgt key columns = Ok m →
  (joker columns = false → Columns m ≠ [])
  ∧ (Columns m ≠ [] →
     ColumnsString m = Ok (Strings.Join (Columns m) ",")
     ∧ Marks m = Ok (Strings.Join (repeat "?" (length (Columns m))) ",")).
Proof.
  intros Hm. destruct (built_config _ _ _ _ Hm) as (Hcomma & Hmark & _).
  split.
  - intros Hj. destruct (MapperWithKey_Ok_struct _ _ _ _ Hm) as (v & name & fs & -> & Hty).
    destruct (explicit_build_columns _ _ _ _ _ _ Hty Hj Hm) as [Hp Hne].
    unfold Columns. intros He. rewrite He in Hp. by apply Permutation_nil in Hp.
  - intros Hne. rewrite ColumnsString_spec, Marks_spec by done.
    unfold separator, placeholder. by rewrite Hcomma, Hmark.
Qed.

Lemma fresh_mapper_views_witness :
  Marks {| fields := [0; 1]; cols := ["a"; "b"]; target := Fixtures.M_ab;
           Comma := 44; Mark := 63; FieldMapper := Some Strings.ToLower |}
  = Ok "?,?".
Proof.
  destruct (fresh_mapper_views (Some (Fixtures.zero_of Fixtures.M_ab)) "mapper"
              ["a"; "b"]
              {| fields := [0; 1]; cols := ["a"; "b"]; target := Fixtures.M_ab;
                 Comma := 44; Mark := 63; FieldMapper := Some Strings.ToLower |}
              eq_refl) as [_ Hv].
  exact (proj2 (Hv ltac:(discriminate))).
Defined.

(** ** Subset and the options *)

Lemma restricted_entries (m : mapper) (rs : list string) :
  entries (restricted m rs) = kept rs (entries m).
Proof. unfold entries at 1. simpl. apply kept_entries. Qed.

Lemma Subset_fresh (h : store) (p : ptr) (m : mapper) (rs : list string) :
  h !! p = Some m → length (cols m) = length (fields m) →
  rs ≠ [] → joker rs = false →
  Subset p rs h = Ok (length h, h ++ [restricted m rs]).
Proof.
  intros Hp Hlen Hne Hj. rewrite (Subset_spec h p m rs Hp) by lia.
  rewrite bool_decide_eq_false_2 by done. by rewrite Hj.
Qed.

(** X14. A subset of a subset keeps the entries of the original whose
    column is in both requests, in the order of the original, and leaves
    the original and the first subset as they were. *)
Theorem subset_of_subset (h : store) (p : ptr) (m : mapper) (rs rs' : list string) :
  h !! p = Some m → length (cols m) = length (fields m) →
  rs ≠ [] → joker rs = false → rs' ≠ [] → joker rs' = false →
  ∃ q h1 q' h2 nm nm',
    Subset p rs h = Ok (q, h1) ∧ Subset q rs' h1 = Ok (q', h2)
    ∧ h2 !! p = Some m ∧ h2 !! q = Some nm ∧ h2 !! q' = Some nm'
    ∧ p ≠ q ∧ q ≠ q' ∧ p ≠ q'
    ∧ entries nm = filter (fun cf : string * nat => cf.1 ∈ rs) (entries m)
    ∧ entries nm'
      = filter (fun cf : string * nat => cf.1 ∈ rs' ∧ cf.1 ∈ rs) (entries m).
Proof.
  intros Hp Hlen Hne Hj Hne' Hj'.
  pose proof (lookup_lt_Some _ _ _ Hp) as Hlt.
  set (nm := restricted m rs). set (h1 := h ++ [nm]).
  assert (h1 !! length h = Some nm) as Hq.
  { unfold h1. by rewrite lookup_app_r, Nat.sub_diag by lia. }
  assert (length (cols nm) = length (fields nm)) as Hlen'
    by (unfold nm; simpl; by rewrite !length_fmap).
  exists (length h), h1, (length h1), (h1 ++ [restricted nm rs']), nm,
         (restricted nm rs').
  assert (length h1 = S (length h)) as Hl1
    by (unfold h1; rewrite length_app; simpl; lia).
  split_and!.
  - by apply Subset_fresh.
  - by apply Subset_fresh.
  - apply lookup_app_l_Some. unfold h1. by apply lookup_app_l_Some.
  - by apply lookup_app_l_Some.
  - by rewrite lookup_app_r, Nat.sub_diag by lia.
  - lia.
  - lia.
  - lia.
  - apply restricted_entries.
  - rewrite restricted_entries. unfold nm. rewrite restricted_entries.
    unfold kept. apply list_filter_filter.
Qed.

Lemma subset_of_subset_witness :
  ∃ q h1 q' h2 nm',
    Subset 0 ["c"; "a"; "d"] [Fixtures.abcd] = Ok (q, h1)
    ∧ Subset q ["d"; "b"; "c"] h1 = Ok (q', h2)
    ∧ h2 !! q' = Some nm' ∧ Columns nm' = ["c"; "d"].
Proof.
  destruct (subset_of_subset [Fixtures.abcd] 0 Fixtures.abcd
              ["c"; "a"; "d"] ["d"; "b"; "c"] eq_refl eq_refl
              ltac:(discriminate) eq_refl ltac:(discriminate) eq_refl)
    as (q & h1 & q' & h2 & nm & nm' & Hs & Hs' & _ & _ & Hq' & _).
  exists q, h1, q', h2, nm'. injection Hs as <- <-. injection Hs' as <- <-.
  injection Hq' as <-. repeat split.
Defined.

Lemma kept_none (rs : list string) (es : list (string * nat)) :
  (∀ c i, (c, i) ∈ es → c ∉ rs) → kept rs es = [].
Proof.
  unfold kept. induction es as [|[c i] es IH]; intros Hnone; [done|].
  rewrite filter_cons_False.
  - apply IH. intros c' i' Hin. apply (Hnone c' i'). by right.
  - simpl. apply (Hnone c i). left.
Qed.

Lemma kept_all (rs : list string) (es : list (string * nat)) :
  (∀ c i, (c, i) ∈ es → c ∈ rs) → kept rs es = es.
Proof.
  unfold kept. induction es as [|[c i] es IH]; intros Hall; [done|].
  rewrite filter_cons_True.
  - f_equal. apply IH. intros c' i' Hin. apply (Hall c' i'). by right.
  - simpl. apply (Hall c i). left.
Qed.

(** X15. [Subset] goes by membership only.  A column is in the result
    exactly when it is a column of the original and a requested name, so
    requested names the original does not have are ignored without a
    panic (none known: no column at all), and requesting every column
    gives a copy, at another pointer, with the columns and fields of the
    original. *)
Theorem subset_by_membership (h : store) (p : ptr) (m : mapper) (rs : list string) :
  h !! p = Some m → length (cols m) = length (fields m) →
  rs ≠ [] → joker rs = false →
  ∃ q h' nm,
    Subset p rs h = Ok (q, h') ∧ h' !! q = Some nm ∧ q ≠ p
    ∧ (∀ c, c ∈ Columns nm ↔ c ∈ Columns m ∧ c ∈ rs)
    ∧ ((∀ c, c ∈ rs → c ∉ Columns m) → Columns nm = [] ∧ fields nm = [])
    ∧ ((∀ c, c ∈ Columns m → c ∈ rs) →
       Columns nm = Columns m ∧ fields nm = fields m).
Proof.
  intros Hp Hlen Hne Hj.
  pose proof (lookup_lt_Some _ _ _ Hp) as Hlt.
  exists (length h), (h ++ [restricted m rs]), (restricted m rs).
  assert (Hcols : Columns (restricted m rs) = filter (fun c => c ∈ rs) (cols m)).
  { unfold Columns. simpl. unfold entries. by apply kept_columns. }
  split_and!.
  - by apply Subset_fresh.
  - by rewrite lookup_app_r, Nat.sub_diag by lia.
  - lia.
  - intros c. rewrite Hcols, list_elem_of_filter. unfold Columns. tauto.
  - intros Hnone.
    assert (kept rs (entries m) = []) as Hk.
    { apply kept_none. intros c i Hin Hc. apply (Hnone c Hc).
      unfold entries in Hin. by apply elem_of_zip_l in Hin. }
    unfold Columns. simpl. by rewrite Hk.
  - intros Hall.
    assert (kept rs (entries m) = entries m) as Hk.
    { apply kept_all. intros c i Hin. apply Hall.
      unfold entries in Hin. by apply elem_of_zip_l in Hin. }
    unfold Columns. simpl. rewrite Hk. unfold entries.
    by rewrite fst_zip, snd_zip by lia.
Qed.

Lemma subset_by_membership_witness :
  ∃ q h' nm,
    Subset 0 ["zz"; "b"] [Fixtures.abcd] = Ok (q, h') ∧ h' !! q = Some nm
    ∧ Columns nm = ["b"].
Proof.
  destruct (subset_by_membership [Fixtures.abcd] 0 Fixtures.abcd ["zz"; "b"]
              eq_refl eq_refl ltac:(discriminate) eq_refl)
    as (q & h' & nm & Hs & Hq & _).
  exists q, h', nm. injection Hs as <- <-. injection Hq as <-. repeat split.
Defined.

Lemma SetOptions_foldl (p : ptr) (opts : list MapperOption) :
  ∀ (h : store) (m : mapper), h !! p = Some m →
  SetOptions p opts h
  = Ok (p, <[p := foldl (fun m (opt : MapperOption) => opt m) m opts]> h).
Proof.
  induction opts as [|opt opts IH]; intros h m Hp; simpl.
  - by rewrite list_insert_id.
  - unfold deref. rewrite Hp. simpl.
    rewrite (IH (<[p := opt m]> h) (opt m)).
    + by rewrite list_insert_insert_eq.
    + apply list_lookup_insert_eq. by apply lookup_lt_Some in Hp.
Qed.

Lemma provided_keeps_mapping (opt : MapperOption) (m : mapper) :
  provided opt →
  cols (opt m) = cols m ∧ fields (opt m) = fields m ∧ target (opt m) = target m.
Proof. by intros [fm|comma|mark]. Qed.

Lemma foldl_keeps_comma (after : list MapperOption) :
  Forall (fun opt : MapperOption => ∀ x, Comma (opt x) = Comma x) after →
  ∀ x, Comma (foldl (fun m (opt : MapperOption) => opt m) x after) = Comma x.
Proof.
  induction 1 as [|opt after Hopt _ IH]; intros x; [done|].
  simpl. by rewrite IH, Hopt.
Qed.

Lemma foldl_provided (opts : list MapperOption) (m : mapper) :
  Forall provided opts →
  cols (foldl (fun m (opt : MapperOption) => opt m) m opts) = cols m
  ∧ fields (foldl (fun m (opt : MapperOption) => opt m) m opts) = fields m
  ∧ target (foldl (fun m (opt : MapperOption) => opt m) m opts) = target m.
Proof.
  intros Hopts. revert m. induction Hopts as [|opt opts Hopt _ IH]; intros m; [done|].
  simpl. destruct (IH (opt m)) as (-> & -> & ->).
  by apply provided_keeps_mapping.
Qed.

(** X17. The options of the package change the configuration only: after
    [SetOptions] with any of [WithFieldMapper], [WithComma], [WithMark]
    the object has the columns, the field positions and the target it
    had, so a field mapper set after construction renames no column.  The
    last [WithComma] decides the separator, and [WithFieldMapper(nil)]
    sets [Direct], which returns a name as it is. *)
Theorem options_keep_the_mapping (p : ptr) (opts : list MapperOption)
    (h : store) (m : mapper) :
  h !! p = Some m → Forall provided opts →
  ∃ h' m',
    SetOptions p opts h = Ok (p, h') ∧ h' !! p = Some m'
    ∧ Columns m' = Columns m ∧ fields m' = fields m ∧ target m' = target m
    ∧ (∀ before after comma,
         opts = before ++ WithComma comma :: after →
         Forall (fun opt : MapperOption => ∀ x, Comma (opt x) = Comma x) after →
         Comma m' = comma)
    ∧ (∀ x, FieldMapper (WithFieldMapper None x) = Some Direct)
    ∧ (∀ field, Direct field = field).
Proof.
  intros Hp Hopts.
  exists (<[p := foldl (fun m (opt : MapperOption) => opt m) m opts]> h),
         (foldl (fun m (opt : MapperOption) => opt m) m opts).
  destruct (foldl_provided opts m Hopts) as (Hc & Hf & Ht).
  split_and!; try done.
  - by apply SetOptions_foldl.
  - apply list_lookup_insert_eq. by apply lookup_lt_Some in Hp.
  - intros before after comma -> Hafter. rewrite foldl_app. simpl.
    by rewrite foldl_keeps_comma.
Qed.

Lemma options_keep_the_mapping_witness :
  ∃ h' m',
    SetOptions 0 [WithComma 59; WithFieldMapper None; WithComma 124] [Fixtures.abcd]
    = Ok (0, h')
    ∧ h' !! 0 = Some m' ∧ Columns m' = ["a"; "b"; "c"; "d"] ∧ Comma m' = 124%Z.
Proof.
  destruct (options_keep_the_mapping 0
              [WithComma 59; WithFieldMapper None; WithComma 124]
              [Fixtures.abcd] Fixtures.abcd eq_refl
              ltac:(repeat constructor))
    as (h' & m' & Hs & Hm' & Hc & _ & _ & Hlast & _).
  exists h', m'. split_and!; [exact Hs | exact Hm' | exact Hc |].
  exact (Hlast [WithComma 59; WithFieldMapper None] [] 124%Z eq_refl
           ltac:(constructor)).
Defined.

(** ** Reading and writing an instance *)

Lemma fields_have_values (m : mapper) (fs : list StructField) (vs : list value) :
  (∀ i, i ∈ fields m → ∃ f, fs !! i = Some f ∧ IsExported f = true) →
  length vs = length fs →
  ∀ i, i ∈ fields m →
    ∃ f x, fs !! i = Some f ∧ IsExported f = true ∧ vs !! i = Some x.
Proof.
  intros Hpos Hlen i Hi. destruct (Hpos i Hi) as (f & Hf & He).
  destruct (lookup_lt_is_Some_2 vs i) as [x Hx].
  { rewrite Hlen. by apply lookup_lt_Some in Hf. }
  by exists f, x.
Qed.

Lemma Values_of_struct (m : mapper) (mem : memory) (name : string)
    (fs : list StructField) (vs : list value) :
  (∀ i, i ∈ fields m → ∃ f, fs !! i = Some f ∧ IsExported f = true) →
  length vs = length fs →
  Values m mem (Some (VStruct (TStruct name fs) vs))
  = Ok (map (fun i => vs !! i) (fields m)).
Proof.
  intros Hpos Hlen. unfold Values. simpl.
  apply (collect_map _ (fun i => vs !! i) _ []).
  intros i Hi. destruct (fields_have_values m fs vs Hpos Hlen i Hi)
    as (f & x & Hf & He & Hx).
  unfold ValueOf. rewrite (Value_Field_exported _ _ _ _ _ _ _ Hf He Hx).
  by rewrite Hx.
Qed.

Lemma Values_of_pointer (m : mapper) (mem : memory) (name : string)
    (fs : list StructField) (vs : list value) (l : nat) :
  (∀ i, i ∈ fields m → ∃ f, fs !! i = Some f ∧ IsExported f = true) →
  length vs = length fs →
  mem !! l = Some (VStruct (TStruct name fs) vs) →
  Values m mem (Some (VPointer (TStruct name fs) (Some (l, []))))
  = Ok (map (fun i => vs !! i) (fields m)).
Proof.
  intros Hpos Hlen Hl. unfold Values. simpl. unfold Value_Elem. simpl.
  rewrite (load_root _ _ _ Hl). simpl.
  apply (collect_map _ (fun i => vs !! i) _ []).
  intros i Hi. destruct (fields_have_values m fs vs Hpos Hlen i Hi)
    as (f & x & Hf & He & Hx).
  rewrite (Value_Field_exported _ _ _ _ _ _ _ Hf He Hx). by rewrite Hx.
Qed.

Lemma Addrs_of_pointer (m : mapper) (mem : memory) (name : string)
    (fs : list StructField) (vs : list value) (l : nat) :
  (∀ i, i ∈ fields m → ∃ f, fs !! i = Some f ∧ IsExported f = true) →
  length vs = length fs →
  mem !! l = Some (VStruct (TStruct name fs) vs) →
  Addrs m mem (Some (VPointer (TStruct name fs) (Some (l, []))))
  = Ok (map (fun i => (fun x => VPointer (typeof x) (Some (l, [i]))) <$> vs !! i)
          (fields m)).
Proof.
  intros Hpos Hlen Hl. unfold Addrs. simpl. unfold Value_Elem. simpl.
  rewrite (load_root _ _ _ Hl). simpl.
  apply (collect_map _
           (fun i => (fun x => VPointer (typeof x) (Some (l, [i]))) <$> vs !! i) _ []).
  intros i Hi. destruct (fields_have_values m fs vs Hpos Hlen i Hi)
    as (f & x & Hf & He & Hx).
  rewrite (Value_Field_exported _ _ _ _ _ _ _ Hf He Hx). by rewrite Hx.
Qed.

(** X18. A mapper built for a struct type never panics on an instance of
    that type: [Values], of the instance or of a pointer to it, and
    [Addrs], of a pointer to it, return one entry per column, and the
    entry at the rank of a column is the value of, or the pointer to, the
    field that resolves to that column. *)
Theorem built_mapper_on_its_target (v0 : value) (name : string)
    (fs : list StructField) (key : string) (columns : list string) (m : mapper)
    (mem : memory) (vs : list value) (l : nat) :
  typeof v0 = TStruct name fs →
  MapperWithKey (Some v0) key columns = Ok m →
  length vs = length fs →
  mem !! l = Some (VStruct (TStruct name fs) vs) →
  ∃ res ares,
    Values m mem (Some (VStruct (TStruct name fs) vs)) = Ok res
    ∧ Values m mem (Some (VPointer (TStruct name fs) (Some (l, [])))) = Ok res
    ∧ Addrs m mem (Some (VPointer (TStruct name fs) (Some (l, [])))) = Ok ares
    ∧ length res = length (Columns m) ∧ length ares = length (Columns m)
    ∧ ∀ k c, Columns m !! k = Some c →
        ∃ i f x, fields m !! k = Some i ∧ fs !! i = Some f
          ∧ resolved_name key f = c ∧ vs !! i = Some x
          ∧ res !! k = Some (Some x)
          ∧ ares !! k = Some (Some (VPointer (typeof x) (Some (l, [i])))).
Proof.
  intros Hty Hm Hlen Hl.
  destruct (build_invariant _ _ _ _ Hm) as (Hcf & _ & name' & fs' & Ht & Hpos).
  destruct (MapperWithKey_Ok _ _ _ _ _ _ Hty Hm) as (Hext & _ & _).
  assert (target m = TStruct name fs) as Ht' by (by rewrite Hext).
  rewrite Ht' in Ht. injection Ht as <- <-.
  exists (map (fun i => vs !! i) (fields m)),
         (map (fun i => (fun x => VPointer (typeof x) (Some (l, [i]))) <$> vs !! i)
            (fields m)).
  split_and!.
  - by apply Values_of_struct.
  - by apply Values_of_pointer.
  - by apply Addrs_of_pointer.
  - unfold Columns. by rewrite length_map.
  - unfold Columns. by rewrite length_map.
  - intros k c Hk. unfold Columns in Hk.
    destruct (lookup_lt_is_Some_2 (fields m) k) as [i Hi].
    { rewrite <- Hcf. by apply lookup_lt_Some in Hk. }
    rewrite <- Ht' in Hext.
    destruct (passing_aligned _ _ _ _ _ _ Hext Hi) as (c' & Hc' & Hin).
    rewrite Hk in Hc'. injection Hc' as <-.
    apply scan_sound in Hin as (f & _ & Hf & _ & Hr).
    rewrite Nat.sub_0_r in Hf.
    destruct (fields_have_values m fs vs Hpos Hlen i) as (f' & x & Hf' & _ & Hx).
    { by apply list_elem_of_lookup_2 in Hi. }
    exists i, f, x. rewrite !list_lookup_fmap, Hi. simpl. rewrite Hx. done.
Qed.

Lemma built_mapper_on_its_target_witness :
  Values Fixtures.keys [Fixtures.a_keys]
    (Some (VPointer Fixtures.M_keys (Some (0, []))))
  = Ok [Some (VString "x")].
Proof.
  destruct (built_mapper_on_its_target (Fixtures.zero_of Fixtures.M_keys) "M"
              [Fixtures.exported "A" []; Fixtures.unexported "b"] "mapper" ["*"]
              Fixtures.keys [Fixtures.a_keys] [VString "x"; VInt 3] 0
              eq_refl eq_refl eq_refl eq_refl)
    as (res & ares & Hv & Hp & _ & _ & _ & Hk).
  injection Hv as <-. exact Hp.
Defined.

(** X19. Writing through an address [Addrs] returned is seen by [Values]:
    after a store of [y] through the pointer to the field at position
    [i], [Values] of the same pointer returns [y] at every rank mapped to
    [i] and the former value at every rank mapped to another position;
    the other allocated instances are untouched. *)
Theorem write_through_is_read_back (m : mapper) (mem : memory) (name : string)
    (fs : list StructField) (vs : list value) (l i : nat) (y : value) :
  (∀ i, i ∈ fields m → ∃ f, fs !! i = Some f ∧ IsExported f = true) →
  length vs = length fs →
  mem !! l = Some (VStruct (TStruct name fs) vs) →
  i ∈ fields m →
  ∃ x ares mem' res,
    vs !! i = Some x
    ∧ Addrs m mem (Some (VPointer (TStruct name fs) (Some (l, [])))) = Ok ares
    ∧ Some (VPointer (typeof x) (Some (l, [i]))) ∈ ares
    ∧ store_through mem (l, [i]) y = Some mem'
    ∧ Values m mem' (Some (VPointer (TStruct name fs) (Some (l, [])))) = Ok res
    ∧ (∀ k, fields m !! k = Some i → res !! k = Some (Some y))
    ∧ (∀ k j, fields m !! k = Some j → j ≠ i → res !! k = Some (vs !! j))
    ∧ (∀ l', l' ≠ l → mem' !! l' = mem !! l').
Proof.
  intros Hpos Hlen Hl Hi.
  destruct (fields_have_values m fs vs Hpos Hlen i Hi) as (f & x & Hf & He & Hx).
  pose proof (lookup_lt_Some _ _ _ Hl) as Hlt.
  pose proof (lookup_lt_Some _ _ _ Hx) as Hlti.
  exists x,
         (map (fun i => (fun x => VPointer (typeof x) (Some (l, [i]))) <$> vs !! i)
            (fields m)),
         (<[l := VStruct (TStruct name fs) (<[i := y]> vs)]> mem),
         (map (fun j => <[i := y]> vs !! j) (fields m)).
  split_and!.
  - done.
  - by apply Addrs_of_pointer.
  - apply list_elem_of_fmap. exists i. by rewrite Hx.
  - unfold store_through. simpl. by rewrite Hl, Hx.
  - apply Values_of_pointer; [done | by rewrite length_insert |].
    by apply list_lookup_insert_eq.
  - intros k Hk. rewrite list_lookup_fmap, Hk. simpl.
    by rewrite list_lookup_insert_eq.
  - intros k j Hk Hne. rewrite list_lookup_fmap, Hk. simpl.
    by rewrite list_lookup_insert_ne.
  - intros l' Hl'. by apply list_lookup_insert_ne.
Qed.

Lemma write_through_is_read_back_witness :
  ∃ mem' res,
    store_through [Fixtures.a_keys] (0, [0]) (VString "yolo") = Some mem'
    ∧ Values Fixtures.keys mem' (Some (VPointer Fixtures.M_keys (Some (0, []))))
      = Ok res
    ∧ res !! 0 = Some (Some (VString "yolo")).
Proof.
  assert (Hpos : ∀ i, i ∈ fields Fixtures.keys →
            ∃ f, [Fixtures.exported "A" []; Fixtures.unexported "b"] !! i = Some f
                 ∧ IsExported f = true).
  { intros i Hi. apply list_elem_of_singleton in Hi. subst i.
    eexists. split; reflexivity. }
  destruct (write_through_is_read_back Fixtures.keys [Fixtures.a_keys] "M"
              [Fixtures.exported "A" []; Fixtures.unexported "b"]
              [VString "x"; VInt 3] 0 0 (VString "yolo") Hpos eq_refl eq_refl
              ltac:(apply list_elem_of_here))
    as (x & ares & mem' & res & _ & _ & _ & Hs & Hv & Hk & _).
  exists mem', res. split_and!; [exact Hs | exact Hv | exact (Hk 0 eq_refl)].
Defined.

(** The failures of [Addrs] and [Values], on any Correspondence and any
    memory. *)
Lemma Addrs_Values_failures (m : mapper) (mem : memory) :
  (∃ p, Values m mem None = Panic p)
  ∧ (fields m ≠ [] → ∀ v, kind (typeof v) ≠ Struct → kind (typeof v) ≠ Pointer →
       ∃ p, Values m mem (Some v) = Panic p)
  ∧ (fields m ≠ [] → ∀ e pl v, load mem pl = Some v → kind (typeof v) ≠ Struct →
       ∃ p, Values m mem (Some (VPointer e (Some pl))) = Panic p)
  ∧ (fields m ≠ [] → ∀ e, ∃ p, Values m mem (Some (VPointer e None)) = Panic p)
  ∧ (∃ p, Addrs m mem None = Panic p)
  ∧ (∀ v, kind (typeof v) ≠ Pointer →
       Addrs m mem (Some v) = Panic (PanicString "destination not a pointer"))
  ∧ (∀ e, ∃ p, Addrs m mem (Some (VPointer e None)) = Panic p)
  ∧ (∀ e pl v, load mem pl = Some v → kind (typeof v) ≠ Struct →
       Addrs m mem (Some (VPointer e (Some pl)))
       = Panic (PanicString "destination not a struct pointer")).
Proof.
  split_and!.
  - by eexists.
  - intros Hne v Hs Hp. unfold Values. simpl.
    destruct (Kind_eqb (kind (typeof v)) Pointer) eqn:Hk.
    { by destruct (typeof v). }
    simpl. apply collect_panic; [done|]. intros i.
    destruct (Value_Field_no_struct (ValueOf (Some v)) i) as [p Hpanic].
    { by intros x [= <-]. }
    exists p. by rewrite Hpanic.
  - intros Hne e pl v Hload Hs. unfold Values. simpl. unfold Value_Elem. simpl.
    rewrite Hload. simpl. apply collect_panic; [done|]. intros i.
    destruct (Value_Field_no_struct
                {| val := Some v; flagRO := false; addr := Some pl |} i)
      as [p Hpanic].
    { by intros x [= <-]. }
    exists p. by rewrite Hpanic.
  - intros Hne e. unfold Values. simpl. unfold Value_Elem. simpl.
    apply collect_panic; [done|]. intros i. by eexists.
  - by eexists.
  - intros v Hp. unfold Addrs. simpl.
    destruct (Kind_eqb (kind (typeof v)) Pointer) eqn:Hk; [|done].
    by destruct (typeof v).
  - intros e. by eexists.
  - intros e pl v Hload Hs. unfold Addrs. simpl. unfold Value_Elem. simpl.
    rewrite Hload. simpl.
    destruct (Kind_eqb (kind (typeof v)) Struct) eqn:Hk; [|done].
    by destruct (typeof v).
Qed.

(** ** Wildcard construction *)

(** X20. A wildcard build on a struct succeeds exactly when the resolved
    names of its exported fields not tagged [,ignore] are pairwise
    distinct; no requested name can be missing.  On a struct without such
    a field it succeeds with no column. *)
Theorem wildcard_build_succeeds_iff (v : value) (name : string)
    (fs : list StructField) (key : string) (columns : list string) :
  typeof v = TStruct name fs → key ≠ EmptyString → joker columns = true →
  ((∃ m, MapperWithKey (Some v) key columns = Ok m) ↔
   NoDup (map (resolved_name key)
            (List.filter (fun f => IsExported f && negb (ignored key f)) fs)))
  ∧ (List.filter (fun f => IsExported f && negb (ignored key f)) fs = [] →
     ∃ m, MapperWithKey (Some v) key columns = Ok m ∧ Columns m = []).
Proof.
  intros Hty Hkey Hj. split.
  - split.
    + intros [m Hm]. destruct (MapperWithKey_Ok _ _ _ _ _ _ Hty Hm) as (_ & Hnd & _).
      rewrite passing_wild, resolvable_names in Hnd by done. exact Hnd.
    + intros Hnd. eexists. by apply (wildcard_build v name fs).
  - intros He. eexists. split.
    + apply (wildcard_build v name fs); try done.
      change (List.filter (exportable key) fs)
        with (List.filter (fun f => IsExported f && negb (ignored key f)) fs).
      rewrite He. constructor.
    + unfold Columns. simpl. rewrite resolvable_names.
      change (List.filter (exportable key) fs)
        with (List.filter (fun f => IsExported f && negb (ignored key f)) fs).
      by rewrite He.
Qed.

Lemma wildcard_build_succeeds_iff_witness :
  ∃ m, Mapper (Some (VStruct (TStruct "M" [Fixtures.unexported "b"]) [VInt 0])) ["*"]
       = Ok m ∧ Columns m = [].
Proof.
  exact (proj2 (wildcard_build_succeeds_iff
                  (VStruct (TStruct "M" [Fixtures.unexported "b"]) [VInt 0]) "M"
                  [Fixtures.unexported "b"] "mapper" ["*"]
                  eq_refl ltac:(discriminate) eq_refl) eq_refl).
Defined.
